(** * The archiving orchestrator of auto-archiver

    A shallow embedding of [src/auto_archiver/core/orchestrator.py]: the
    class [ArchivingOrchestrator] with its methods [feed], [feed_item] and
    [archive].

    The orchestrator drives plug-ins (archivers, databases, enrichers,
    storages, a formatter) whose code is not part of the orchestrator.  A
    plug-in method is embedded as a function of the plug-in world, which
    returns the new world and either a value or a raised exception.  Every
    call the orchestrator makes is recorded, with its arguments and its
    outcome, in a trace of events; the properties below are statements
    about these traces and about the world that the calls leave: a call
    that the orchestrator makes is the plug-in's function applied to the
    world that the call before it left.

    What is taken for granted about the plug-ins is what their contracts
    say: [enrich] changes the record it is given in place, [store] writes
    into the media it is given, and the other methods only read the
    record.  An exception, [KeyboardInterrupt] included, reaches the
    orchestrator as the outcome of a call into a plug-in or into
    [tempfile]. *)

From stdpp Require Import base option list strings gmap.

Set Warnings "-register-all".
Set Default Proof Using "Type".

(** ** Exceptions and outcomes of calls *)

(** The three classes of Python exceptions that [feed_item] tells apart:
    instances of [Exception], [KeyboardInterrupt], and the remaining
    subclasses of [BaseException] such as the [SystemExit] that [exit()]
    raises, which neither [except] clause catches. *)
Inductive exn := Exception | KeyboardInterrupt | SystemExit.

Inductive res (A : Type) :=
| Ok (a : A)
| Raise (e : exn).
Arguments Ok {A} a.
Arguments Raise {A} e.

Definition raised {A} (o : res A) : option exn :=
  match o with
  | Ok _ => None
  | Raise e => Some e
  end.

(** ** Media and Metadata *)

(** Modelled from the spec: the class [Media] of [core/media.py], which
    is not among the sources.  A Media Object has a file and an open map
    of named properties; the storage locator that [store] sets is kept in
    the world of the plug-ins.  [Value] is a Python object found in
    [Media.properties]: a [Media], a list of objects, or anything else. *)
Inductive Value :=
| VScalar (s : string)
| VMedia (m : Media)
| VList (l : list Value)
with Media :=
| mkMedia (filename : string) (properties : list (string * Value)).

Definition filename (m : Media) : string :=
  match m with mkMedia f _ => f end.

(** [m.properties]: a dict, kept in insertion order since [archive]
    iterates over its [values()]. *)
Definition properties (m : Media) : list (string * Value) :=
  match m with mkMedia _ p => p end.

Definition isinstance_Media (v : Value) : bool :=
  match v with VMedia _ => true | _ => false end.

Definition isinstance_list (v : Value) : bool :=
  match v with VList _ => true | _ => false end.

(** The elements of a list object ([[]] for the other objects, on which
    [archive] never iterates). *)
Definition elements_of (v : Value) : list Value :=
  match v with VList l => l | _ => [] end.

(** Modelled from the spec: the class [Metadata] of [core/metadata.py],
    which is not among the sources.  The Artifact Record of the spec:
    a primary URL, free-form key/value metadata (where the original URL is
    kept under a side key), a success flag, the [rearchivable] flag, the
    scratch directory, the ordered Media collection and the final-summary
    Media. *)
Record Metadata := mkMetadata {
  url : string;
  metadata : gmap string string;
  success : bool;
  rearchivable : bool;
  tmp_dir : option string;
  media : list Media;
  final_media : option Media
}.

(** [Metadata()] *)
Definition Metadata_new : Metadata :=
  mkMetadata "" ∅ false false None [] None.

Definition get_url (r : Metadata) : string := url r.

Definition set_url (u : string) (r : Metadata) : Metadata :=
  mkMetadata u (metadata r) (success r) (rearchivable r) (tmp_dir r)
             (media r) (final_media r).

(** [r.set(key, val)] *)
Definition Metadata_set (key val : string) (r : Metadata) : Metadata :=
  mkMetadata (url r) (<[key := val]> (metadata r)) (success r)
             (rearchivable r) (tmp_dir r) (media r) (final_media r).

Definition set_rearchivable (b : bool) (r : Metadata) : Metadata :=
  mkMetadata (url r) (metadata r) (success r) b (tmp_dir r)
             (media r) (final_media r).

Definition set_tmp_dir (d : string) (r : Metadata) : Metadata :=
  mkMetadata (url r) (metadata r) (success r) (rearchivable r) (Some d)
             (media r) (final_media r).

Definition set_final_media (m : Media) (r : Metadata) : Metadata :=
  mkMetadata (url r) (metadata r) (success r) (rearchivable r) (tmp_dir r)
             (media r) (Some m).

Definition is_success (r : Metadata) : bool := success r.

(** ** Events *)

Inductive level := Debug | Info | Warning | Error.

(** The four notifications of a database that return nothing. *)
Inductive Signal := Started | Done | Failed | Aborted.

(** One event per call into a plug-in, the logger or the operating
    system.  Plug-ins are named by their position in the list they are
    registered in. *)
Inductive Event :=
| EvSetup (a : nat) (o : res unit)
| EvSanitizeUrl (a : nat) (u : string) (o : res string)
| EvIsRearchivable (a : nat) (u : string) (o : res bool)
| EvDownload (a : nat) (r : Metadata) (o : res Metadata)
| EvEnrich (e : nat) (r : Metadata) (o : res unit)
| EvStore (s : nat) (v : Value) (r : Metadata) (o : res unit)
| EvFormat (r : Metadata) (o : res (option Media))
| EvSignal (d : nat) (s : Signal) (r : Metadata) (o : res unit)
| EvFetch (d : nat) (r : Metadata) (o : res (option Metadata))
| EvLog (l : level)
| EvPrint
| EvTmpDir (o : res string)
| EvCleanup (dir : string) (o : res unit).

(** ** Plug-in interfaces *)

(** The classes [Archiver], [Database], [Enricher], [Storage],
    [Formatter] and [Feeder] are imported by the orchestrator and not
    among the sources: a plug-in is any record of functions with the
    methods that the orchestrator calls. *)

Record Archiver (W : Type) := mkArchiver {
  name : string;
  setup : W -> W * res unit;
  sanitize_url : string -> W -> W * res string;
  is_rearchivable : string -> W -> W * res bool;
  download : Metadata -> W -> W * res Metadata
}.
Arguments mkArchiver {W}.
Arguments name {W}.
Arguments setup {W}.
Arguments sanitize_url {W}.
Arguments is_rearchivable {W}.
Arguments download {W}.

(** [fetch] returns [None] for any result that Python takes for false. *)
Record Database (W : Type) := mkDatabase {
  started : Metadata -> W -> W * res unit;
  fetch : Metadata -> W -> W * res (option Metadata);
  done : Metadata -> W -> W * res unit;
  failed : Metadata -> W -> W * res unit;
  aborted : Metadata -> W -> W * res unit
}.
Arguments mkDatabase {W}.
Arguments started {W}.
Arguments fetch {W}.
Arguments done {W}.
Arguments failed {W}.
Arguments aborted {W}.

(** [enrich] changes the record in place: it returns the record as it
    leaves it, also when it raises. *)
Record Enricher (W : Type) := mkEnricher {
  enrich : Metadata -> W -> W * Metadata * res unit
}.
Arguments mkEnricher {W}.
Arguments enrich {W}.

(** [store(media, item)]: whatever [store] writes (the storage locator of
    the media) is kept in the world of the plug-ins, the orchestrator
    never reads it. *)
Record Storage (W : Type) := mkStorage {
  store : Value -> Metadata -> W -> W * res unit
}.
Arguments mkStorage {W}.
Arguments store {W}.

Record Formatter (W : Type) := mkFormatter {
  format : Metadata -> W -> W * res (option Media)
}.
Arguments mkFormatter {W}.
Arguments format {W}.

(** The fields that [__init__] copies from the configuration.  The feeder
    is given by the items it yields during the run. *)
Record ArchivingOrchestrator (W : Type) := mkOrchestrator {
  feeder : list Metadata;
  formatter : Formatter W;
  enrichers : list (Enricher W);
  archivers : list (Archiver W);
  databases : list (Database W);
  storages : list (Storage W)
}.
Arguments mkOrchestrator {W}.
Arguments feeder {W}.
Arguments formatter {W}.
Arguments enrichers {W}.
Arguments archivers {W}.
Arguments databases {W}.
Arguments storages {W}.

(** What the orchestrator uses from outside its own file: [Metadata.merge]
    (of [core/metadata.py], not among the sources, hence a parameter) and
    the temporary directory of [tempfile].  [mkdtemp] is what
    [TemporaryDirectory(dir="./")] does when it is entered, [rmtree dir]
    what its [cleanup] does when it is left; like any call they return or
    raise. *)
Record Runtime (W : Type) := mkRuntime {
  merge : Metadata -> Metadata -> Metadata;
  mkdtemp : W -> W * res string;
  rmtree : string -> W -> W * res unit
}.
Arguments mkRuntime {W}.
Arguments merge {W}.
Arguments mkdtemp {W}.
Arguments rmtree {W}.

(** ** The monad of the orchestrator *)

(** The state: the world of the plug-ins and the record [item] that
    [feed_item] received, which [archive] names [result] and updates in
    place. *)
Record State (W : Type) := mkState {
  world : W;
  item : Metadata
}.
Arguments mkState {W}.
Arguments world {W}.
Arguments item {W}.

(** A computation returns the new state, the events it produced and a
    value or a raised exception. *)
Definition M (W A : Type) : Type := State W -> State W * list Event * res A.

Definition ret {W A} (a : A) : M W A :=
  fun st => (st, [], Ok a).

Definition bind {W A B} (m : M W A) (f : A -> M W B) : M W B :=
  fun st =>
    match m st with
    | (st1, t1, Ok a) => let '(st2, t2, o) := f a st1 in (st2, t1 ++ t2, o)
    | (st1, t1, Raise e) => (st1, t1, Raise e)
    end.

Notation "x <- m ;; k" := (bind m (fun x => k))
  (at level 100, m at next level, right associativity).
Notation "m ;; k" := (bind m (fun _ => k))
  (at level 100, right associativity).

Definition raise {W A} (e : exn) : M W A :=
  fun st => (st, [], Raise e).

Definition emit {W} (ev : Event) : M W unit :=
  fun st => (st, [ev], Ok tt).

Definition get_item {W} : M W Metadata :=
  fun st => (st, [], Ok (item st)).

Definition put_item {W} (r : Metadata) : M W unit :=
  fun st => (mkState (world st) r, [], Ok tt).

Definition modify_item {W} (f : Metadata -> Metadata) : M W unit :=
  fun st => (mkState (world st) (f (item st)), [], Ok tt).

(** A call into a plug-in that leaves the record alone. *)
Definition call {W A} (f : W -> W * res A) (ev : res A -> Event) : M W A :=
  fun st =>
    let '(w, o) := f (world st) in (mkState w (item st), [ev o], o).

(** [try: m except ...: h]; the handler [h] tells which exceptions it
    catches. *)
Definition try_except {W A} (m : M W A) (h : exn -> option (M W A)) : M W A :=
  fun st =>
    match m st with
    | (st1, t1, Raise e) =>
        match h e with
        | Some k => let '(st2, t2, o) := k st1 in (st2, t1 ++ t2, o)
        | None => (st1, t1, Raise e)
        end
    | r => r
    end.

(** [for x in l: body], the loop without [break]; [i] is the position of
    the head of [l]. *)
Fixpoint for_each {W A} (body : nat -> A -> M W unit) (i : nat) (l : list A)
  : M W unit :=
  match l with
  | [] => ret tt
  | x :: l' => body i x ;; for_each body (S i) l'
  end.

Definition when {W} (b : bool) (m : M W unit) : M W unit :=
  if b then m else ret tt.

(** [exit()] *)
Definition exit {W A} : M W A := raise SystemExit.

(** ** The orchestrator *)

Section Orchestrator.
Context {W : Type} (rt : Runtime W) (self : ArchivingOrchestrator W).


(** [for d in self.databases: d.<s>(r)] *)
Definition signal (s : Signal) (d : Database W) : Metadata -> W -> W * res unit :=
  match s with
  | Started => started d
  | Done => done d
  | Failed => failed d
  | Aborted => aborted d
  end.

Definition notify (s : Signal) (r : Metadata) : M W unit :=
  for_each (fun i d => call (signal s d r) (EvSignal i s r)) 0 (databases self).

(** *** 1 - cleanup (lines 94-101) *)

(** [for a in self.archivers: url = a.sanitize_url(url)] *)
Fixpoint sanitize_loop (i : nat) (l : list (Archiver W)) (url : string)
  : M W string :=
  match l with
  | [] => ret url
  | a :: l' =>
      url' <- call (sanitize_url a url) (EvSanitizeUrl i url) ;;
      sanitize_loop (S i) l' url'
  end.

Definition sanitize : M W string :=
  result <- get_item ;;
  let original_url := get_url result in
  url <- sanitize_loop 0 (archivers self) original_url ;;
  modify_item (set_url url) ;;
  when (negb (String.eqb original_url url))
       (modify_item (Metadata_set "original_url" original_url)) ;;
  ret url.

(** *** 2 - rearchiving logic (lines 103-106) *)

Definition rearchivable_check (url : string) : M W unit :=
  for_each (fun i a =>
              b <- call (is_rearchivable a url) (EvIsRearchivable i url) ;;
              modify_item (fun r => set_rearchivable (rearchivable r || b) r))
           0 (archivers self) ;;
  emit (EvLog Debug).

(** *** notify start to the databases and look the item up
    (lines 110-118) *)

(** [(cached_result or Metadata()).merge(local_result)] when
    [local_result] is truthy *)
Definition merge_cached (cached : option Metadata)
                        (local_result : option Metadata) : option Metadata :=
  match local_result with
  | Some lr => Some (merge rt (default Metadata_new cached) lr)
  | None => cached
  end.

Fixpoint cache_loop (i : nat) (l : list (Database W))
                    (cached_result : option Metadata)
  : M W (option Metadata) :=
  match l with
  | [] => ret cached_result
  | d :: l' =>
      result <- get_item ;;
      call (started d result) (EvSignal i Started result) ;;
      local_result <- call (fetch d result) (EvFetch i result) ;;
      cache_loop (S i) l' (merge_cached cached_result local_result)
  end.

Definition cache_lookup : M W (option Metadata) :=
  cache_loop 0 (databases self) None.

(** Lines 94-118 of [archive]: up to the cache candidate. *)
Definition archive_lookup : M W (option Metadata) :=
  url <- sanitize ;;
  rearchivable_check url ;;
  cache_lookup.

(** *** the short-circuit (lines 119-123) *)

Definition short_circuit (cached_result : Metadata) : M W Metadata :=
  emit (EvLog Debug) ;;
  notify Done cached_result ;;
  ret cached_result.

(** *** 3 - call archivers until one succeeds (lines 126-132) *)

(** The body of the [try]: [true] when the loop is to [break]. *)
Definition try_download (i : nat) (a : Archiver W) : M W bool :=
  result <- get_item ;;
  r <- call (download a result) (EvDownload i result) ;;
  modify_item (fun result => merge rt result r) ;;
  result <- get_item ;;
  ret (is_success result).

Definition except_download (e : exn) : option (M W bool) :=
  match e with
  | Exception => Some (emit (EvLog Error) ;; ret false)
  | _ => None
  end.

Fixpoint fetch_loop (i : nat) (l : list (Archiver W)) : M W unit :=
  match l with
  | [] => ret tt
  | a :: l' =>
      emit (EvLog Info) ;;
      brk <- try_except (try_download i a) except_download ;;
      if brk : bool then ret tt else fetch_loop (S i) l'
  end.

Definition call_archivers : M W unit :=
  fetch_loop 0 (archivers self).

(** *** 4 - call enrichers (lines 142-143) *)

Definition call_enrich (i : nat) (e : Enricher W) : M W unit :=
  fun st =>
    let '(w, r, o) := enrich e (item st) (world st) in
    (mkState w r, [EvEnrich i (item st) o], o).

Definition call_enrichers : M W unit :=
  for_each call_enrich 0 (enrichers self).

(** *** 5 - store media (lines 147-156) *)

(** [s.store(m, result)] *)
Definition call_store (i : nat) (s : Storage W) (m : Value) : M W unit :=
  result <- get_item ;;
  call (store s m result) (EvStore i m result).

(** The body of [for prop in m.properties.values()]. *)
Definition store_prop (i : nat) (s : Storage W) (prop : Value) : M W unit :=
  when (isinstance_Media prop) (call_store i s prop) ;;
  when (isinstance_list prop
        && (0 <? length (elements_of prop))
        && isinstance_Media (nth 0 (elements_of prop) (VScalar "")))
       (for_each (fun _ prop_media => call_store i s prop_media)
                 0 (elements_of prop)).

(** The body of [for m in result.media]. *)
Definition store_one (i : nat) (s : Storage W) (m : Media) : M W unit :=
  call_store i s (VMedia m) ;;
  for_each (fun _ kv => store_prop i s kv.2) 0 (properties m).

Definition store_media : M W unit :=
  for_each (fun i s =>
              result <- get_item ;;
              for_each (fun _ m => store_one i s m) 0 (media result))
           0 (storages self).

(** *** 6 - format and store formatted if needed (lines 160-163) *)

Definition format_and_store : M W unit :=
  result <- get_item ;;
  final_media <- call (format (formatter self) result) (EvFormat result) ;;
  match final_media with
  | Some fm =>
      for_each (fun i s => call_store i s (VMedia fm)) 0 (storages self) ;;
      modify_item (set_final_media fm)
  | None => ret tt
  end.

(** *** signal completion to databases (lines 166-168) *)

Definition signal_completion : M W Metadata :=
  result <- get_item ;;
  notify Done result ;;
  ret result.

(** Lines 142-168: what follows the loop over the archivers. *)
Definition after_archivers : M W Metadata :=
  call_enrichers ;;
  store_media ;;
  format_and_store ;;
  signal_completion.

(** Lines 125-168: the item is not served from the cache. *)
Definition archive_fresh : M W Metadata :=
  call_archivers ;;
  after_archivers.

(** [if cached_result and not cached_result.rearchivable] *)
Definition archive_after_lookup (cached_result : option Metadata)
  : M W Metadata :=
  match cached_result with
  | Some c => if negb (rearchivable c) then short_circuit c else archive_fresh
  | None => archive_fresh
  end.

Definition archive : M W Metadata :=
  cached_result <- archive_lookup ;;
  archive_after_lookup cached_result.

(** *** feed_item (lines 72-85) *)

(** [with tempfile.TemporaryDirectory(dir="./") as tmp_dir: body].
    When the directory cannot be created the exception leaves the [with]
    statement and [body] does not run.  Otherwise the directory is
    removed however [body] ends, also when it returns a value; when the
    removal raises, its exception is what leaves the [with] statement,
    whatever [body] returned or raised. *)
Definition with_tmp_dir {A} (body : string -> M W A) : M W A :=
  fun st =>
    match mkdtemp rt (world st) with
    | (w, Raise e) => (mkState w (item st), [EvTmpDir (Raise e)], Raise e)
    | (w, Ok dir) =>
        let '(st1, t1, o) := body dir (mkState w (item st)) in
        let '(w2, oc) := rmtree rt dir (world st1) in
        (mkState w2 (item st1),
         EvTmpDir (Ok dir) :: t1 ++ [EvCleanup dir oc],
         match oc with
         | Ok _ => o
         | Raise e => Raise e
         end)
    end.

(** The body of the [try] of [feed_item]. *)
Definition feed_item_try : M W (option Metadata) :=
  with_tmp_dir (fun tmp_dir =>
    modify_item (set_tmp_dir tmp_dir) ;;
    r <- archive ;;
    ret (Some r)).

Definition feed_item_except (e : exn) : option (M W (option Metadata)) :=
  match e with
  | KeyboardInterrupt =>
      Some (emit (EvLog Warning) ;;
            item <- get_item ;;
            notify Aborted item ;;
            exit)
  | Exception =>
      Some (emit (EvLog Error) ;;
            item <- get_item ;;
            notify Failed item ;;
            ret None)
  | SystemExit => None
  end.

Definition feed_item (item : Metadata) : M W (option Metadata) :=
  put_item item ;;
  emit EvPrint ;;
  try_except feed_item_try feed_item_except.

(** *** feed (lines 68-70) *)

Fixpoint feed_items (items : list Metadata) : M W unit :=
  match items with
  | [] => ret tt
  | item :: items' => feed_item item ;; feed_items items'
  end.

Definition feed : M W unit := feed_items (feeder self).

End Orchestrator.

(** ** Observations on traces *)

(** The exception that the call of an event raised, if any. *)
Definition event_raised (ev : Event) : option exn :=
  match ev with
  | EvSetup _ o => raised o
  | EvSanitizeUrl _ _ o => raised o
  | EvIsRearchivable _ _ o => raised o
  | EvDownload _ _ o => raised o
  | EvEnrich _ _ o => raised o
  | EvStore _ _ _ o => raised o
  | EvFormat _ o => raised o
  | EvSignal _ _ _ o => raised o
  | EvFetch _ _ o => raised o
  | EvTmpDir o => raised o
  | EvCleanup _ o => raised o
  | EvLog _ | EvPrint => None
  end.

Definition returned (ev : Event) : Prop := event_raised ev = None.

(** The exception of an event that no handler inside [archive] catches:
    the [try] around [download] catches [Exception], and nothing else is
    caught. *)
Definition uncaught (ev : Event) : option exn :=
  match ev with
  | EvDownload _ _ (Raise Exception) => None
  | _ => event_raised ev
  end.

Definition is_download (ev : Event) : bool :=
  match ev with EvDownload _ _ _ => true | _ => false end.

(** The calls of [download], in order. *)
Definition downloads (tr : list Event) : list Event :=
  List.filter is_download tr.

(** The terminal notifications: [done], [failed] and [aborted]. *)
Definition terminal (s : Signal) : bool :=
  match s with Started => false | _ => true end.

Definition is_terminal (ev : Event) : bool :=
  match ev with EvSignal _ s _ _ => terminal s | _ => false end.

(** The terminal notifications that database [d] received, in order. *)
Fixpoint observed (d : nat) (tr : list Event) : list Signal :=
  match tr with
  | [] => []
  | EvSignal d' s _ _ :: tr' =>
      if terminal s && (d =? d') then s :: observed d tr' else observed d tr'
  | _ :: tr' => observed d tr'
  end.

(** Each of the first [n] databases received exactly one terminal
    notification, the same for all. *)
Definition one_terminal_each (n : nat) (tr : list Event) : Prop :=
  exists s, forall d, d < n -> observed d tr = [s].

(** No call of [started] comes after a call of [fetch]. *)
Definition started_all_before_fetch (tr : list Event) : Prop :=
  forall i j d r o d' r' o',
    tr !! i = Some (EvFetch d r o) ->
    tr !! j = Some (EvSignal d' Started r' o') ->
    j < i.

(** The objects that [archive] stores for one value of [m.properties]. *)
Definition nested_media (prop : Value) : list Value :=
  match prop with
  | VMedia _ => [prop]
  | VList (VMedia m :: l) => VMedia m :: l
  | _ => []
  end.





(** A run is disciplined when an exception that nothing catches ends it:
    a run that returns holds no such event, a run that raises [e] ends
    with the event that raised [e]. *)
Definition disciplined {A} (tr : list Event) (o : res A) : Prop :=
  match o with
  | Ok _ => Forall (fun ev => uncaught ev = None) tr
  | Raise e => exists tr0 ev,
      tr = tr0 ++ [ev] /\ Forall (fun ev => uncaught ev = None) tr0
      /\ uncaught ev = Some e
  end.

(** Every run of [m] is disciplined and all its events satisfy [P]. *)
Definition sound {W A} (P : Event -> Prop) (m : M W A) : Prop :=
  forall st st' tr o, m st = (st', tr, o) -> Forall P tr /\ disciplined tr o.

(** An event other than a terminal notification. *)
Definition quiet (ev : Event) : Prop := is_terminal ev = false.

(** An event of what [archive] does up to the cache candidate: neither
    a call of [download] nor a terminal notification. *)
Definition early (ev : Event) : Prop :=
  is_terminal ev = false /\ is_download ev = false.

(** A run of [m] either raises before any terminal notification, or gets
    to the loop [for d in self.databases: d.done(r)] with no terminal
    notification and no uncaught exception before it, and ends as that
    loop ends, returning [r]. *)
Definition ends_in_done {W} (self : ArchivingOrchestrator W)
                        (m : M W Metadata) : Prop :=
  forall st st' tr o, m st = (st', tr, o) ->
    (exists e, o = Raise e /\ Forall quiet tr)
    \/ (exists st1 tr1 r tr2 o2,
          tr = tr1 ++ tr2 /\ Forall quiet tr1
          /\ notify self Done r st1 = (st', tr2, o2)
          /\ o = match o2 with Ok _ => Ok r | Raise e => Raise e end).

(** ** More observations, for the stages between the claims *)

(** The events that [archive] can produce: calls into the plug-ins it
    drives and log lines; never [print], the temporary directory,
    [setup], [failed] or [aborted]. *)
Definition archive_event (ev : Event) : Prop :=
  match ev with
  | EvPrint | EvTmpDir _ | EvCleanup _ _ | EvSetup _ _
  | EvSignal _ Failed _ _ | EvSignal _ Aborted _ _ => False
  | _ => True
  end.

(** The events of [archive] up to the cache candidate. *)
Definition lookup_event (ev : Event) : Prop :=
  match ev with
  | EvSanitizeUrl _ _ _ | EvIsRearchivable _ _ _ | EvLog _
  | EvSignal _ Started _ _ | EvFetch _ _ _ => True
  | _ => False
  end.

(** The events of the [except] clauses of [feed_item]. *)
Definition handler_event (ev : Event) : Prop :=
  match ev with
  | EvLog _ | EvSignal _ Failed _ _ | EvSignal _ Aborted _ _ => True
  | _ => False
  end.

(** A call that works on the content of the item: [download], [enrich],
    [store] or [format]. *)
Definition is_processing (ev : Event) : bool :=
  match ev with
  | EvDownload _ _ _ | EvEnrich _ _ _ | EvStore _ _ _ _ | EvFormat _ _ => true
  | _ => false
  end.

Definition is_print (ev : Event) : bool :=
  match ev with EvPrint => true | _ => false end.

(** What one storage is given for one Media of [result.media]. *)
Definition stored_for (m : Media) : list Value :=
  VMedia m :: flat_map nested_media (properties m).*2.

(** What [archive] may change of the record before it calls the
    archivers: the URL, the key [original_url], and the flag
    [rearchivable], which it may only raise. *)
Definition lookup_frame (r r' : Metadata) : Prop :=
  success r' = success r /\ tmp_dir r' = tmp_dir r /\
  media r' = media r /\ final_media r' = final_media r /\
  (forall k, k <> "original_url" -> metadata r' !! k = metadata r !! k) /\
  (rearchivable r = true -> rearchivable r' = true).

(** Every run of [m] takes the record to one related to it by [R]. *)
Definition preserves {W A} (R : Metadata -> Metadata -> Prop) (m : M W A)
  : Prop :=
  forall st st' tr o, m st = (st', tr, o) -> R (item st) (item st').

(** ** The calls behind the events *)

(** The calls [fs] made one after the other, each in the world that the
    call before it left, up to the first that raises: the world that
    they leave and the way they end. *)
Fixpoint call_all {W} (fs : list (W -> W * res unit)) (w : W) : W * res unit :=
  match fs with
  | [] => (w, Ok tt)
  | f :: fs' =>
      match f w with
      | (w', Ok _) => call_all fs' w'
      | (w', Raise e) => (w', Raise e)
      end
  end.

(** [started] and then [fetch], both with the record [r], on one
    database after the other, up to the first call that raises: the
    world that the calls leave and what the calls of [fetch] returned. *)
Fixpoint started_then_fetch {W} (r : Metadata) (l : list (Database W)) (w : W)
  : W * res (list (option Metadata)) :=
  match l with
  | [] => (w, Ok [])
  | d :: l' =>
      match started d r w with
      | (w1, Raise e) => (w1, Raise e)
      | (w1, Ok _) =>
          match fetch d r w1 with
          | (w2, Raise e) => (w2, Raise e)
          | (w2, Ok lr) =>
              match started_then_fetch r l' w2 with
              | (w3, Ok lrs) => (w3, Ok (lr :: lrs))
              | (w3, Raise e) => (w3, Raise e)
              end
          end
      end
  end.

(** The records [hits] merged into a single one, the first of them into
    a new record and each other into the merge of those before it;
    nothing when there is no record to merge. *)
Definition merge_hits {W} (rt : Runtime W) (hits : list Metadata)
  : option Metadata :=
  match hits with
  | [] => None
  | _ :: _ => Some (foldl (merge rt) Metadata_new hits)
  end.

(** The removal of the temporary directory. *)
Definition is_cleanup (ev : Event) : bool :=
  match ev with EvCleanup _ _ => true | _ => false end.

(** The exception that leaves a [with] statement whose body ended in
    [o] and whose exit ended in [oc]: that of the exit if it raised,
    that of the body otherwise. *)
Definition leaves_with {A} (o : res A) (oc : res unit) : option exn :=
  match oc with
  | Ok _ => raised o
  | Raise e => Some e
  end.

(** What one storage is given in a pass over the Media [ms]. *)
Definition stored_media (ms : list Media) : list Value :=
  flat_map stored_for ms.

(** A run from [st] to [st'] with the events [tr] in which the storage
    [s], registered at position [i], was given the objects [vs], one
    after the other, every call returned, and nothing else happened. *)
Definition stored_on {W} (i : nat) (s : Storage W) (vs : list Value)
                     (st st' : State W) (tr : list Event) : Prop :=
  item st' = item st /\
  tr = (fun v => EvStore i v (item st) (Ok tt)) <$> vs /\
  call_all ((fun v => store s v (item st)) <$> vs) (world st)
  = (world st', Ok tt).

(** The terminal notification [s] was delivered with the record [r]:
    the method of that name was called on every database, in
    registration order, from the world [w]; every call returned, and
    they left the world [w']. *)
Definition delivered {W} (self : ArchivingOrchestrator W) (s : Signal)
                     (r : Metadata) (w w' : W) : Prop :=
  match s with
  | Started => False
  | Done => call_all ((fun d => done d r) <$> databases self) w = (w', Ok tt)
  | Failed =>
      call_all ((fun d => failed d r) <$> databases self) w = (w', Ok tt)
  | Aborted =>
      call_all ((fun d => aborted d r) <$> databases self) w = (w', Ok tt)
  end.

(** ** [utils/misc.py] *)

(** [needle in hay], for two [str]. *)
Fixpoint str_contains (needle hay : string) : bool :=
  match hay with
  | EmptyString => String.prefix needle hay
  | String _ hay' => String.prefix needle hay || str_contains needle hay'
  end.

(** What [expand_url] does to the outside: a request, a log line. *)
Inductive ExpandEvent :=
| Requested (u : string)
| Logged (l : level).

(** [expand_url(url)].  [requests_get url] is [requests.get(url)]
    followed by the read of [r.url]: it returns the URL of the response
    or raises.  The [except:] has no class: it catches whatever is
    raised, and the function then falls through to [return url]. *)
Definition expand_url {W} (requests_get : string -> W -> W * res string)
                      (url : string) (w : W)
  : W * list ExpandEvent * res string :=
  if str_contains "https://t.co/" url then
    match requests_get url w with
    | (w', Ok r_url) => (w', [Requested url; Logged Debug], Ok r_url)
    | (w', Raise _) => (w', [Requested url; Logged Error], Ok url)
    end
  else (w, [], Ok url).

(** An object, by its attributes; an attribute may hold [None]. *)
Definition getattr {V} (o : gmap string (option V)) (prop : string)
  : res (option V) :=
  match o !! prop with
  | Some v => Ok v
  | None => Raise Exception
  end.

(** [getattr_or(o, prop, default)].  The bare [raise] on a [None] value
    raises a [RuntimeError], which the [except:] catches like the
    [AttributeError] of a missing attribute. *)
Definition getattr_or {V} (o : gmap string (option V)) (prop : string)
                      (default : option V) : res (option V) :=
  let body :=
    match getattr o prop with
    | Ok res => match res with
                | None => Raise Exception
                | Some _ => Ok res
                end
    | Raise e => Raise e
    end in
  match body with
  | Ok res => Ok res
  | Raise _ => Ok default
  end.

(** ** Concrete plug-ins, to run the orchestrator on *)

Module Demo.

(** Modelled from the spec: [Metadata.merge] of [core/metadata.py],
    which is not among the sources.  Scalar keys are overwritten by the
    incoming record, the Media collection is concatenated. *)
Definition merge_overwrite (l r : Metadata) : Metadata :=
  mkMetadata (url r) (metadata r ∪ metadata l) (success r) (rearchivable r)
             (tmp_dir r) (media l ++ media r) (final_media r).

Definition rt : Runtime unit :=
  mkRuntime merge_overwrite (fun w => (w, Ok "tmp0")) (fun _ w => (w, Ok tt)).

(** An archiver given by its sanitizer, its answer to [is_rearchivable]
    and the outcome of its [download]. *)
Definition archiver (san : string -> res string) (rea : res bool)
                    (dl : res Metadata) : Archiver unit :=
  mkArchiver "demo" (fun w => (w, Ok tt)) (fun u w => (w, san u))
             (fun _ w => (w, rea)) (fun _ w => (w, dl)).

(** A database given by what [fetch] finds and the outcomes of [done],
    [failed] and [aborted]. *)
Definition database (found : option Metadata) (dn fl ab : res unit)
  : Database unit :=
  mkDatabase (fun _ w => (w, Ok tt)) (fun _ w => (w, Ok found))
             (fun _ w => (w, dn)) (fun _ w => (w, fl)) (fun _ w => (w, ab)).

Definition db_plain : Database unit :=
  database None (Ok tt) (Ok tt) (Ok tt).

Definition storage : Storage unit :=
  mkStorage (fun _ _ w => (w, Ok tt)).

Definition no_format : Formatter unit :=
  mkFormatter (fun _ w => (w, Ok None)).

Definition orchestrator (ars : list (Archiver unit))
                        (dbs : list (Database unit))
                        (sts : list (Storage unit))
  : ArchivingOrchestrator unit :=
  mkOrchestrator [] no_format [] ars dbs sts.

Definition record (u : string) : Metadata :=
  mkMetadata u ∅ false false None [] None.

Definition succeeded (u : string) : Metadata :=
  mkMetadata u ∅ true false None [] None.

Definition start (r : Metadata) : State unit := mkState tt r.


Definition ar_success : Archiver unit :=
  archiver Ok (Ok false) (Ok (succeeded "")).



Definition cached : Metadata := succeeded "u".

(** The first database has the item, archived before. *)
Definition orch_cached : ArchivingOrchestrator unit :=
  orchestrator [ar_success]
               [database (Some cached) (Ok tt) (Ok tt) (Ok tt); db_plain]
               [storage].


(** [done] raises in the second database. *)
Definition orch_done_raises : ArchivingOrchestrator unit :=
  orchestrator []
               [db_plain; database None (Raise Exception) (Ok tt) (Ok tt)]
               [].

(** Two sanitizers that rewrite the URL, two that do not. *)
Definition orch_rewrite : ArchivingOrchestrator unit :=
  orchestrator [archiver (fun u => Ok (u +:+ "/a")) (Ok false) (Ok (record ""));
                archiver (fun u => Ok (u +:+ "?b")) (Ok true) (Ok (record ""))]
               [] [].


Definition thumb : Media :=
  mkMedia "thumb.jpg" [("inner", VMedia (mkMedia "deep.jpg" []))].
Definition frame1 : Media := mkMedia "1.jpg" [].
Definition frame2 : Media :=
  mkMedia "2.jpg" [("more", VList [VMedia (mkMedia "deeper.jpg" [])])].

(** A Media with a scalar property, a nested Media and a list of two
    Media; the nested ones hold Media of their own. *)
Definition video : Media :=
  mkMedia "video.mp4"
          [("duration", VScalar "12");
           ("thumbnail", VMedia thumb);
           ("frames", VList [VMedia frame1; VMedia frame2])].

(** An enricher that appends a Media to [result.media]. *)
Definition add_media (m : Media) : Enricher unit :=
  mkEnricher (fun r w =>
    (w, mkMetadata (url r) (metadata r) (success r) (rearchivable r)
                   (tmp_dir r) (media r ++ [m]) (final_media r), Ok tt)).

Definition report : Media := mkMedia "report.html" [].

(** A formatter that renders [report]. *)
Definition format_report : Formatter unit :=
  mkFormatter (fun _ w => (w, Ok (Some report))).

(** A whole pipeline: one archiver that succeeds, two enrichers, two
    storages, a formatter, one database, and a feeder of two items. *)
Definition orch_full : ArchivingOrchestrator unit :=
  mkOrchestrator [record "a"; record "b"] format_report
                 [add_media video; add_media frame1]
                 [ar_success] [db_plain] [storage; storage].


(** The second sanitizer raises. *)
Definition orch_sanitizer_raises : ArchivingOrchestrator unit :=
  orchestrator [archiver (fun u => Ok (u +:+ "/a")) (Ok false) (Ok (record ""));
                archiver (fun _ => Raise Exception) (Ok false) (Ok (record ""))]
               [db_plain] [].


(** A stand-in for [requests.get]: short links resolve, the host
    [down] does not answer. *)
Definition requests_get (u : string) (w : unit) : unit * res string :=
  if String.eqb u "https://t.co/down" then (w, Raise KeyboardInterrupt)
  else (w, Ok "https://example.org/long").

End Demo.

(** ** Plug-ins that keep a journal *)

Module Journal.

(** The world is the journal of the calls that reached a plug-in or
    [tempfile], the latest last. *)
Definition World : Type := list string.

Definition note (s : string) (w : World) : World := w ++ [s].

(** The temporary directory; its removal ends in [rm]. *)
Definition runtime (rm : res unit) : Runtime World :=
  mkRuntime Demo.merge_overwrite
            (fun w => (note "mkdtemp" w, Ok "tmp0"))
            (fun dir w => (note ("rmtree " +:+ dir) w, rm)).

Definition rt : Runtime World := runtime (Ok tt).

(** An archiver given by its sanitizer and the outcome of its
    [download]. *)
Definition archiver (n : string) (san : string -> res string)
                    (dl : res Metadata) : Archiver World :=
  mkArchiver n
             (fun w => (note (n +:+ ".setup") w, Ok tt))
             (fun u w => (note (n +:+ ".sanitize_url") w, san u))
             (fun _ w => (note (n +:+ ".is_rearchivable") w, Ok false))
             (fun _ w => (note (n +:+ ".download") w, dl)).

(** A database given by what [fetch] finds and the outcomes of [done],
    [failed] and [aborted]. *)
Definition database (n : string) (found : option Metadata)
                    (dn fl ab : res unit) : Database World :=
  mkDatabase (fun _ w => (note (n +:+ ".started") w, Ok tt))
             (fun _ w => (note (n +:+ ".fetch") w, Ok found))
             (fun _ w => (note (n +:+ ".done") w, dn))
             (fun _ w => (note (n +:+ ".failed") w, fl))
             (fun _ w => (note (n +:+ ".aborted") w, ab)).

Definition db_plain (n : string) : Database World :=
  database n None (Ok tt) (Ok tt) (Ok tt).

Definition label (v : Value) : string :=
  match v with
  | VScalar x => x
  | VMedia m => filename m
  | VList _ => "list"
  end.

Definition storage (n : string) : Storage World :=
  mkStorage (fun v _ w => (note (n +:+ ".store " +:+ label v) w, Ok tt)).

Definition no_format : Formatter World :=
  mkFormatter (fun _ w => (note "format" w, Ok None)).

Definition orchestrator (ars : list (Archiver World))
                        (dbs : list (Database World))
                        (sts : list (Storage World))
  : ArchivingOrchestrator World :=
  mkOrchestrator [] no_format [] ars dbs sts.

Definition start (r : Metadata) : State World := mkState [] r.

(** The orchestrator [orch] with a feeder that yields [items]. *)
Definition fed (items : list Metadata) (orch : ArchivingOrchestrator World)
  : ArchivingOrchestrator World :=
  mkOrchestrator items (formatter orch) (enrichers orch) (archivers orch)
                 (databases orch) (storages orch).

(** A record with Media, as an archiver would leave it. *)
Definition with_media (u : string) (ms : list Media) : Metadata :=
  mkMetadata u ∅ true false None ms None.

(** Both databases have the item, archived before; each holds one of
    its Media. *)
Definition hit1 : Metadata := with_media "u" [Demo.frame1].
Definition hit2 : Metadata := with_media "u" [Demo.frame2].

Definition two_hits (dn : res unit) : ArchivingOrchestrator World :=
  orchestrator [archiver "a" Ok (Ok (Demo.succeeded ""))]
               [database "db0" (Some hit1) dn (Ok tt) (Ok tt);
                database "db1" (Some hit2) (Ok tt) (Ok tt) (Ok tt)]
               [storage "s0"].

(** What the lookup of [two_hits] leaves. *)
Definition merged : Metadata := with_media "u" [Demo.frame1; Demo.frame2].

(** Two archivers, of which the second succeeds, and two databases.
    The sanitizer of the first archiver is [san] and its [download] ends
    in [dl]; [failed] and [aborted] of the first database end in [fl]
    and [ab]. *)
Definition orch_pair (san : string -> res string) (dl : res Metadata)
                     (fl ab : res unit) : ArchivingOrchestrator World :=
  orchestrator [archiver "a" san dl; archiver "b" Ok (Ok (Demo.succeeded ""))]
               [database "db0" None (Ok tt) fl ab; db_plain "db1"]
               [storage "s0"].

(** Two storages and no archiver: the record is stored as it comes. *)
Definition orch_store : ArchivingOrchestrator World :=
  orchestrator [] [db_plain "db0"] [storage "s0"; storage "s1"].

(** A Media with a list of three objects, the second of which is not a
    Media, between two other properties. *)
Definition album : Media :=
  mkMedia "album.zip"
          [("cover", VMedia Demo.thumb);
           ("pages", VList [VMedia Demo.frame1; VScalar "note";
                            VMedia Demo.frame2]);
           ("size", VScalar "3")].

(** A Media with a list that starts with an object that is not a
    Media. *)
Definition notes : Media :=
  mkMedia "notes.txt"
          [("lines", VList [VScalar "note"; VMedia Demo.frame1])].

End Journal.

(** ** Running computations *)

Section Running.
Context {W : Type}.
Implicit Types (st : State W) (tr : list Event).

Lemma bind_inv {A B} (m : M W A) (f : A -> M W B) st st' tr o :
  bind m f st = (st', tr, o) ->
  (exists st1 t1 a t2,
      m st = (st1, t1, Ok a) /\ f a st1 = (st', t2, o) /\ tr = t1 ++ t2)
  \/ (exists e, m st = (st', tr, Raise e) /\ o = Raise e).
Proof.
  unfold bind. destruct (m st) as [[st1 t1] [a|e]].
  - destruct (f a st1) as [[st2 t2] o2] eqn:Hf. intros [= <- <- <-].
    left. by exists st1, t1, a, t2.
  - intros [= <- <- <-]. right. by exists e.
Qed.

Lemma bind_ok {A B} (m : M W A) (f : A -> M W B) st st1 t1 a :
  m st = (st1, t1, Ok a) ->
  bind m f st = let '(st2, t2, o) := f a st1 in (st2, t1 ++ t2, o).
Proof. unfold bind. by intros ->. Qed.

Lemma bind_raise {A B} (m : M W A) (f : A -> M W B) st st1 t1 e :
  m st = (st1, t1, Raise e) -> bind m f st = (st1, t1, Raise e).
Proof. unfold bind. by intros ->. Qed.

Lemma sound_ret {A} P (a : A) : sound (W:=W) P (ret a).
Proof. intros st st' tr o [= <- <- <-]. split; constructor. Qed.

Lemma sound_get_item P : sound (W:=W) P get_item.
Proof. intros st st' tr o [= <- <- <-]. split; constructor. Qed.

Lemma sound_modify_item P f : sound (W:=W) P (modify_item f).
Proof. intros st st' tr o [= <- <- <-]. split; constructor. Qed.

Lemma sound_emit (P : Event -> Prop) ev :
  P ev -> uncaught ev = None -> sound (W:=W) P (emit ev).
Proof.
  intros HP Hu st st' tr o [= <- <- <-]. split; by repeat constructor.
Qed.

Lemma sound_call {A} (P : Event -> Prop) (f : W -> W * res A) ev :
  (forall o, P (ev o)) -> (forall o, uncaught (ev o) = raised o) ->
  sound P (call f ev).
Proof.
  intros HP Hu st st' tr o. unfold call.
  destruct (f (world st)) as [w o']. intros [= <- <- <-].
  split; [by repeat constructor|].
  destruct o' as [a|e]; simpl.
  - repeat constructor. by rewrite Hu.
  - exists [], (ev (Raise e)). split_and!; [done|constructor|by rewrite Hu].
Qed.

Lemma sound_bind {A B} P (m : M W A) (f : A -> M W B) :
  sound P m -> (forall a, sound P (f a)) -> sound P (bind m f).
Proof.
  intros Hm Hf st st' tr o Hrun.
  apply bind_inv in Hrun
    as [(st1 & t1 & a & t2 & H1 & H2 & ->)|(e & H1 & ->)].
  - apply Hm in H1 as [HP1 HD1]. apply Hf in H2 as [HP2 HD2].
    split; [by apply Forall_app|].
    destruct o as [b|e]; simpl in *.
    + by apply Forall_app.
    + destruct HD2 as (tr0 & ev & -> & H0 & Hev).
      exists (t1 ++ tr0), ev. rewrite Forall_app, (assoc_L (++)). done.
  - by apply Hm in H1.
Qed.

Lemma sound_when P b (m : M W unit) : sound P m -> sound P (when b m).
Proof. destruct b; [done|]. intros _. apply sound_ret. Qed.

Lemma sound_for_each {A} P (body : nat -> A -> M W unit) i l :
  (forall j x, sound P (body j x)) -> sound P (for_each body i l).
Proof.
  intros Hb. revert i. induction l as [|x l IH]; intros i; simpl.
  - apply sound_ret.
  - apply sound_bind; [apply Hb|]. intros _. apply IH.
Qed.

Lemma disciplined_returned {A} tr (o : res A) ev :
  disciplined tr o -> ev ∈ tr -> uncaught ev <> None ->
  exists tr0, tr = tr0 ++ [ev] /\ o = Raise (default Exception (uncaught ev))
              /\ Forall (fun ev => uncaught ev = None) tr0.
Proof.
  intros HD Hin Hne. destruct o as [a|e]; simpl in HD.
  - by eapply Forall_forall in HD.
  - destruct HD as (tr0 & ev' & -> & H0 & Hev).
    apply elem_of_app in Hin as [Hin|Hin].
    + by eapply Forall_forall in H0.
    + apply list_elem_of_singleton in Hin as ->. exists tr0.
      by rewrite Hev.
Qed.

Lemma disciplined_raise {A} tr (e : exn) :
  disciplined (A:=A) tr (Raise e) ->
  exists ev, ev ∈ tr /\ event_raised ev = Some e.
Proof.
  intros (tr0 & ev & -> & _ & Hev). exists ev. split; [set_solver|].
  destruct ev as [| | |? ? [|[]]| | | | | | | | |]; simpl in *; congruence.
Qed.

(** Two runs of calls that return, one after the other. *)
Lemma call_all_app (fs1 fs2 : list (W -> W * res unit)) w w1 w2 :
  call_all fs1 w = (w1, Ok tt) -> call_all fs2 w1 = (w2, Ok tt) ->
  call_all (fs1 ++ fs2) w = (w2, Ok tt).
Proof.
  revert w. induction fs1 as [|f fs1 IH]; intros w; simpl.
  - by intros [= <-].
  - destruct (f w) as [w' [[]|e]]; [|done]. apply IH.
Qed.

End Running.

(** ** The loops of [archive], one at a time *)

Section Loops.
Context {W : Type} (rt : Runtime W).
Implicit Types (st : State W) (tr : list Event) (r : Metadata).

Lemma call_inv {A} (f : W -> W * res A) ev st st' tr o :
  call f ev st = (st', tr, o) ->
  exists w, f (world st) = (w, o) /\ st' = mkState w (item st) /\ tr = [ev o].
Proof.
  unfold call. destruct (f (world st)) as [w o']. intros [= <- <- <-].
  by exists w.
Qed.

(** [for d in databases: d.<s>(r)]: the record stays as it is; the
    loop returns after one call per database, or stops at the first
    call that raises. *)
Lemma notify_loop_run s r i (l : list (Database W)) st st' tr o :
  for_each (fun j d => call (signal s d r) (EvSignal j s r)) i l st
  = (st', tr, o) ->
  item st' = item st /\
  match o with
  | Ok _ => tr = (fun j => EvSignal j s r (Ok tt)) <$> seq i (length l)
  | Raise e => exists k,
      k < length l /\
      tr = ((fun j => EvSignal j s r (Ok tt)) <$> seq i k)
           ++ [EvSignal (i + k) s r (Raise e)]
  end.
Proof.
  revert i st tr. induction l as [|d l IH]; intros i st tr; cbn [for_each].
  - intros [= <- <- <-]. done.
  - intros Hrun. apply bind_inv in Hrun
      as [(st1 & t1 & [] & t2 & H1 & H2 & ->)|(e & H1 & ->)].
    + apply call_inv in H1 as (w & _ & -> & ->).
      apply IH in H2 as [Hit H2]. split; [done|].
      destruct o as [u|e].
      * by rewrite H2.
      * destruct H2 as (k & Hk & ->). exists (S k). split; [simpl; lia|].
        by replace (i + S k) with (S i + k) by lia.
    + apply call_inv in H1 as (w & _ & -> & ->). split; [done|].
      exists 0. split; [simpl; lia|]. by rewrite Nat.add_0_r.
Qed.

(** The loop of notifications is the calls of the databases' own
    methods, each in the world that the one before left. *)
Lemma notify_loop_calls s r i (l : list (Database W)) st st' tr o :
  for_each (fun j d => call (signal s d r) (EvSignal j s r)) i l st
  = (st', tr, o) ->
  call_all ((fun d => signal s d r) <$> l) (world st) = (world st', o).
Proof.
  revert i st tr. induction l as [|d l IH]; intros i st tr; cbn [for_each].
  - by intros [= <- <- <-].
  - intros Hrun. apply bind_inv in Hrun
      as [(st1 & t1 & [] & t2 & H1 & H2 & ->)|(e & H1 & ->)].
    + apply call_inv in H1 as (w & Hd & -> & ->).
      apply IH in H2. simpl in *. by rewrite Hd.
    + apply call_inv in H1 as (w & Hd & -> & ->). simpl. by rewrite Hd.
Qed.

(** When all these calls return, so does the loop, after one call per
    database. *)
Lemma notify_loop_total s r i (l : list (Database W)) st w' :
  call_all ((fun d => signal s d r) <$> l) (world st) = (w', Ok tt) ->
  for_each (fun j d => call (signal s d r) (EvSignal j s r)) i l st
  = (mkState w' (item st),
     (fun j => EvSignal j s r (Ok tt)) <$> seq i (length l), Ok tt).
Proof.
  revert i st. induction l as [|d l IH]; intros i st; simpl.
  - intros [= <-]. by destruct st.
  - destruct (signal s d r (world st)) as [w1 [[]|e]] eqn:Hd; [|done].
    intros Hc. unfold bind at 1, call at 1. rewrite Hd.
    by rewrite (IH (S i) (mkState w1 (item st)) Hc).
Qed.



(** The loop over the databases at the start of [archive]:
    [started] and [fetch] alternate, database by database. *)
Lemma cache_loop_run i (l : list (Database W)) cached st st' tr c :
  cache_loop rt i l cached st = (st', tr, Ok c) ->
  exists results : list (option Metadata),
    length results = length l /\ item st' = item st /\
    started_then_fetch (item st) l (world st) = (world st', Ok results) /\
    tr = concat (zip_with (fun j lr =>
                             [EvSignal j Started (item st) (Ok tt);
                              EvFetch j (item st) (Ok lr)])
                          (seq i (length results)) results) /\
    c = foldl (merge_cached rt) cached results.
Proof.
  revert i cached st tr.
  induction l as [|d l IH]; intros i cached st tr; cbn [cache_loop].
  - intros [= <- <- <-]. by exists [].
  - intros Hrun. apply bind_inv in Hrun
      as [(st0 & t0 & r & t1 & [= <- <- <-] & Hrun & ->)|(e & [=] & _)].
    apply bind_inv in Hrun
      as [(st1 & t1' & [] & t2 & H1 & Hrun & ->)|(e & _ & [=])].
    apply call_inv in H1 as (w1 & Hs & -> & ->).
    apply bind_inv in Hrun
      as [(st2 & t2' & lr & t3 & H2 & Hrun & ->)|(e & _ & [=])].
    apply call_inv in H2 as (w2 & Hf & -> & ->).
    apply IH in Hrun as (results & Hlen & Hit & Hcalls & -> & ->).
    exists (lr :: results). simpl in *.
    split_and!; [by rewrite Hlen|done| |done..].
    by rewrite Hs, Hf, Hcalls.
Qed.

(** The candidate that the loop builds is the merge of the results
    that are not empty. *)
Lemma merge_cached_hits cached (results : list (option Metadata)) :
  foldl (merge_cached rt) cached results
  = match omap id results with
    | [] => cached
    | hits => Some (foldl (merge rt) (default Metadata_new cached) hits)
    end.
Proof.
  revert cached. induction results as [|[lr|] results IH]; intros cached.
  - done.
  - cbn [foldl]. rewrite IH. cbn. by destruct (omap id results).
  - cbn [foldl]. by rewrite IH.
Qed.

End Loops.

(** ** Storing media *)

Section Storing.
Context {W : Type}.
Implicit Types (st : State W) (tr : list Event) (s : Storage W).


Lemma stored_on_nil i s st : stored_on i s [] st st [].
Proof. done. Qed.

Lemma stored_on_app i s vs1 vs2 st st1 st2 t1 t2 :
  stored_on i s vs1 st st1 t1 -> stored_on i s vs2 st1 st2 t2 ->
  stored_on i s (vs1 ++ vs2) st st2 (t1 ++ t2).
Proof.
  intros (Hit1 & -> & Hc1) (Hit2 & -> & Hc2). rewrite Hit1 in *.
  split_and!; [congruence|by rewrite fmap_app|].
  rewrite fmap_app. by eapply call_all_app.
Qed.

(** [s.store(m, result)]: the method of the storage, applied to the
    world as it stands. *)
Lemma call_store_run i s v st st' tr :
  call_store i s v st = (st', tr, Ok tt) -> stored_on i s [v] st st' tr.
Proof.
  unfold call_store, bind, get_item, call, stored_on. simpl.
  destruct (store s v (item st) (world st)) as [w [[]|e]];
    by intros [= <- <-].
Qed.

(** [for prop_media in prop: s.store(prop_media, result)] *)
Lemma store_list_run i s j (l : list Value) st st' tr :
  for_each (fun _ prop_media => call_store i s prop_media) j l st
  = (st', tr, Ok tt) ->
  stored_on i s l st st' tr.
Proof.
  revert j st tr. induction l as [|v l IH]; intros j st tr; cbn [for_each].
  - intros [= <- <-]. apply stored_on_nil.
  - intros Hrun. apply bind_inv in Hrun
      as [(st1 & t1 & [] & t2 & H1 & H2 & ->)|(e & _ & [=])].
    apply call_store_run in H1. apply IH in H2.
    exact (stored_on_app i s [v] l _ _ _ _ _ H1 H2).
Qed.

(** One value of [m.properties]: what is stored is decided by the two
    [isinstance] tests. *)
Lemma store_prop_run i s prop st st' tr :
  store_prop i s prop st = (st', tr, Ok tt) ->
  stored_on i s (nested_media prop) st st' tr.
Proof.
  unfold store_prop. intros Hrun. apply bind_inv in Hrun
    as [(st1 & t1 & [] & t2 & H1 & H2 & ->)|(e & _ & [=])].
  destruct prop as [x|m|[|v l]]; simpl in H1, H2.
  - injection H1 as <- <-; injection H2 as <- <-. apply stored_on_nil.
  - injection H2 as <- <-. rewrite (right_id_L [] (++)).
    by apply call_store_run.
  - injection H1 as <- <-; injection H2 as <- <-. apply stored_on_nil.
  - injection H1 as <- <-.
    destruct v as [x|m|l']; simpl in H2;
      try (injection H2 as <- <-; apply stored_on_nil).
    by apply (store_list_run i s 0 (VMedia m :: l)) in H2.
Qed.

(** [for prop in m.properties.values(): ...] *)
Lemma store_props_run i s j (props : list (string * Value)) st st' tr :
  for_each (fun _ kv => store_prop i s kv.2) j props st = (st', tr, Ok tt) ->
  stored_on i s (flat_map nested_media props.*2) st st' tr.
Proof.
  revert j st tr.
  induction props as [|[k v] props IH]; intros j st tr; cbn [for_each].
  - intros [= <- <-]. apply stored_on_nil.
  - intros Hrun. apply bind_inv in Hrun
      as [(st1 & t1 & [] & t2 & H1 & H2 & ->)|(e & _ & [=])].
    apply store_prop_run in H1. apply IH in H2.
    exact (stored_on_app _ _ _ _ _ _ _ _ _ H1 H2).
Qed.

(** One Media of [result.media]: the Media itself, then what its
    properties hold, one level deep. *)
Lemma store_one_run i s m st st' tr :
  store_one i s m st = (st', tr, Ok tt) ->
  stored_on i s (stored_for m) st st' tr.
Proof.
  unfold store_one. intros Hrun. apply bind_inv in Hrun
    as [(st1 & t1 & [] & t2 & H1 & H2 & ->)|(e & _ & [=])].
  apply call_store_run in H1. apply store_props_run in H2.
  exact (stored_on_app i s [VMedia m] _ _ _ _ _ _ H1 H2).
Qed.

(** [for m in result.media: ...], for one storage. *)
Lemma store_all_media i s j (ms : list Media) st st' tr :
  for_each (fun _ m => store_one i s m) j ms st = (st', tr, Ok tt) ->
  stored_on i s (stored_media ms) st st' tr.
Proof.
  revert j st tr. induction ms as [|m ms IH]; intros j st tr; cbn [for_each].
  - intros [= <- <-]. apply stored_on_nil.
  - intros Hrun. apply bind_inv in Hrun
      as [(st1 & t1 & [] & t2 & H1 & H2 & ->)|(e & _ & [=])].
    apply store_one_run in H1. apply IH in H2.
    exact (stored_on_app _ _ _ _ _ _ _ _ _ H1 H2).
Qed.

(** [for s in self.storages: for m in result.media: ...]: every storage,
    in registration order, is given the same objects. *)
Lemma store_media_loop_run i (l : list (Storage W)) st st' tr :
  for_each (fun i s =>
              result <- get_item ;;
              for_each (fun _ m => store_one i s m) 0 (media result))
           i l st = (st', tr, Ok tt) ->
  let given := stored_media (media (item st)) in
  item st' = item st /\
  tr = flat_map (fun j => (fun v => EvStore j v (item st) (Ok tt)) <$> given)
                (seq i (length l)) /\
  call_all (flat_map (fun s => (fun v => store s v (item st)) <$> given) l)
           (world st)
  = (world st', Ok tt).
Proof.
  revert i st tr. induction l as [|s l IH]; intros i st tr; cbn [for_each].
  - by intros [= <- <-].
  - intros Hrun. apply bind_inv in Hrun
      as [(st1 & t1 & [] & t2 & H1 & H2 & ->)|(e & _ & [=])].
    apply bind_inv in H1
      as [(st0 & t0 & r & t3 & [= <- <- <-] & H1 & ->)|(e & [=] & _)].
    apply store_all_media in H1 as (Hit & -> & Hc).
    apply IH in H2 as (Hit' & -> & Hc'). rewrite Hit in *.
    split_and!; [done..|]. simpl. by eapply call_all_app.
Qed.

End Storing.

(** ** The loop over the archivers *)

Section Fetching.
Context {W : Type} (rt : Runtime W).
Implicit Types (st : State W) (tr : list Event) (a : Archiver W).

(** The [try] statement around [download], case by case. *)
Lemma try_download_run i a st :
  try_except (try_download rt i a) except_download st =
  let '(w, o) := download a (item st) (world st) in
  match o with
  | Ok x =>
      (mkState w (merge rt (item st) x), [EvDownload i (item st) (Ok x)],
       Ok (is_success (merge rt (item st) x)))
  | Raise Exception =>
      (mkState w (item st),
       [EvDownload i (item st) (Raise Exception); EvLog Error], Ok false)
  | Raise e =>
      (mkState w (item st), [EvDownload i (item st) (Raise e)], Raise e)
  end.
Proof.
  unfold try_except, try_download, except_download, bind, get_item, call,
    modify_item, emit, ret; simpl.
  by destruct (download a (item st) (world st)) as [w [x|[]]].
Qed.




End Fetching.

(** ** Exceptions inside [archive] *)

Section Discipline.
Context {W : Type} (rt : Runtime W) (self : ArchivingOrchestrator W).
Implicit Types (st : State W) (tr : list Event).

Lemma sound_mono {A} (P Q : Event -> Prop) (m : M W A) :
  (forall ev, P ev -> Q ev) -> sound P m -> sound Q m.
Proof.
  intros HPQ Hm st st' tr o Hrun. apply Hm in Hrun as [HP HD].
  split; [|done]. by eapply Forall_impl.
Qed.

Local Ltac sound_step :=
  first
    [ apply sound_ret | apply sound_get_item | apply sound_modify_item
    | apply sound_when | apply sound_emit; [done..]
    | apply sound_call; [by intros []..]
    | apply sound_bind; [|intros ?]
    | apply sound_for_each; intros ? ? ].

Lemma sanitize_loop_sound i (l : list (Archiver W)) u :
  sound early (sanitize_loop i l u).
Proof.
  revert i u. induction l as [|a l IH]; intros i u; cbn [sanitize_loop];
    repeat sound_step. apply IH.
Qed.

Lemma cache_loop_sound i (l : list (Database W)) cached :
  sound early (cache_loop rt i l cached).
Proof.
  revert i cached. induction l as [|d l IH]; intros i cached;
    cbn [cache_loop]; repeat sound_step. apply IH.
Qed.

Lemma archive_lookup_sound : sound early (archive_lookup rt self).
Proof.
  unfold archive_lookup, sanitize, rearchivable_check, cache_lookup.
  repeat sound_step; [apply sanitize_loop_sound|apply cache_loop_sound].
Qed.

Lemma try_download_sound i a :
  sound quiet (try_except (try_download rt i a) except_download).
Proof.
  intros st st' tr o. rewrite try_download_run.
  destruct (download a (item st) (world st)) as [w [x|[]]];
    intros [= <- <- <-]; (split; [by repeat constructor|]); simpl;
    try (by repeat constructor).
  - by exists [], (EvDownload i (item st) (Raise KeyboardInterrupt)).
  - by exists [], (EvDownload i (item st) (Raise SystemExit)).
Qed.

Lemma fetch_loop_sound i (l : list (Archiver W)) :
  sound quiet (fetch_loop rt i l).
Proof.
  revert i. induction l as [|a l IH]; intros i; cbn [fetch_loop].
  - apply sound_ret.
  - apply sound_bind; [by apply sound_emit|intros _].
    apply sound_bind; [apply try_download_sound|].
    intros [|]; [apply sound_ret|apply IH].
Qed.

Lemma call_enrich_sound i (e : Enricher W) : sound quiet (call_enrich i e).
Proof.
  intros st st' tr o. unfold call_enrich.
  destruct (enrich e (item st) (world st)) as [[w r] [[]|x]];
    intros [= <- <- <-]; (split; [by repeat constructor|]); simpl.
  - by repeat constructor.
  - by exists [], (EvEnrich i (item st) (Raise x)).
Qed.

Lemma call_store_sound i (s : Storage W) v : sound quiet (call_store i s v).
Proof. unfold call_store. repeat sound_step. Qed.

Lemma store_media_sound : sound quiet (store_media self).
Proof.
  unfold store_media, store_one, store_prop.
  repeat first [apply call_store_sound | sound_step].
Qed.

Lemma format_and_store_sound : sound quiet (format_and_store self).
Proof.
  unfold format_and_store.
  apply sound_bind; [apply sound_get_item|intros r].
  apply sound_bind; [by apply sound_call|intros [fm|]].
  - apply sound_bind; [|intros _; apply sound_modify_item].
    apply sound_for_each. intros i s. apply call_store_sound.
  - apply sound_ret.
Qed.

Lemma notify_sound s r : sound (fun _ => True) (notify self s r).
Proof. unfold notify. repeat sound_step. Qed.

Lemma quiet_any {A} (m : M W A) : sound quiet m -> sound (fun _ => True) m.
Proof. by apply sound_mono. Qed.

Lemma early_quiet {A} (m : M W A) : sound early m -> sound quiet m.
Proof. apply sound_mono. by intros ev [? _]. Qed.

(** Every run of [archive] is disciplined: an exception other than an
    [Exception] of [download] ends it there and then. *)
Lemma archive_sound : sound (fun _ => True) (archive rt self).
Proof.
  unfold archive. apply sound_bind.
  { apply quiet_any, early_quiet, archive_lookup_sound. }
  assert (sound (fun _ => True) (archive_fresh rt self)) as Hfresh.
  { unfold archive_fresh, after_archivers, signal_completion,
      call_archivers, call_enrichers.
    repeat first
      [ apply notify_sound
      | apply quiet_any, fetch_loop_sound
      | apply quiet_any, store_media_sound
      | apply quiet_any, format_and_store_sound
      | apply sound_for_each; intros ? ?; apply quiet_any, call_enrich_sound
      | sound_step ]. }
  intros [c|]; simpl; [|done]. destruct (rearchivable c); simpl; [done|].
  unfold short_circuit. repeat first [apply notify_sound | sound_step].
Qed.

Lemma ends_in_done_bind {A} (m : M W A) (f : A -> M W Metadata) :
  sound quiet m -> (forall a, ends_in_done self (f a)) ->
  ends_in_done self (bind m f).
Proof.
  intros Hm Hf st st' tr o Hrun.
  apply bind_inv in Hrun
    as [(st1 & t1 & a & t2 & H1 & H2 & ->)|(e & H1 & ->)].
  - apply Hm in H1 as [HP1 _].
    apply Hf in H2 as [(e & -> & HQ)|(st2 & tr1 & r & tr2 & o2 & -> & HQ & Hn & ->)].
    + left. exists e. split; [done|]. by apply Forall_app.
    + right. exists st2, (t1 ++ tr1), r, tr2, o2.
      rewrite (assoc_L (++)), Forall_app. done.
  - apply Hm in H1 as [HP1 _]. left. by exists e.
Qed.

Lemma ends_in_done_notify r :
  ends_in_done self (notify self Done r ;; ret r).
Proof.
  intros st st' tr o Hrun. right.
  apply bind_inv in Hrun
    as [(st1 & t1 & [] & t2 & H1 & [= <- <-] & ->)|(e & H1 & ->)].
  - exists st, [], r, t1, (Ok tt). by rewrite (right_id_L [] (++)).
  - exists st, [], r, tr, (Raise e). done.
Qed.

(** [archive] calls no terminal notification before the loop that
    calls [done], which is the last thing it does. *)
Lemma archive_ends_in_done : ends_in_done self (archive rt self).
Proof.
  unfold archive. apply ends_in_done_bind.
  { apply early_quiet, archive_lookup_sound. }
  assert (ends_in_done self (archive_fresh rt self)) as Hfresh.
  { unfold archive_fresh, after_archivers, signal_completion,
      call_archivers, call_enrichers.
    apply ends_in_done_bind; [apply fetch_loop_sound|intros _].
    apply ends_in_done_bind;
      [apply sound_for_each; intros ? ?; apply call_enrich_sound|intros _].
    apply ends_in_done_bind; [apply store_media_sound|intros _].
    apply ends_in_done_bind; [apply format_and_store_sound|intros _].
    apply ends_in_done_bind; [apply sound_get_item|intros r].
    apply ends_in_done_notify. }
  intros [c|]; simpl; [|done]. destruct (rearchivable c); simpl; [done|].
  unfold short_circuit.
  apply ends_in_done_bind; [by apply sound_emit|intros _].
  apply ends_in_done_notify.
Qed.

End Discipline.

(** ** [feed_item] and [feed] *)

Section Feeding.
Context {W : Type} (rt : Runtime W) (self : ArchivingOrchestrator W).
Implicit Types (st : State W) (tr : list Event).

Lemma observed_app d tr1 tr2 :
  observed d (tr1 ++ tr2) = observed d tr1 ++ observed d tr2.
Proof.
  induction tr1 as [|ev tr1 IH]; [done|].
  destruct ev; simpl; try done. by destruct (terminal s && (d =? d0)); rewrite IH.
Qed.

Lemma observed_quiet d tr : Forall quiet tr -> observed d tr = [].
Proof.
  induction 1 as [|ev tr Hq _ IH]; [done|].
  destruct ev; simpl; try done. unfold quiet in Hq. simpl in Hq.
  by rewrite Hq.
Qed.

(** A loop of terminal notifications that return: every database of
    the range hears the notification once. *)
Lemma observed_signals d s r i n :
  terminal s = true ->
  observed d ((fun j => EvSignal j s r (Ok tt)) <$> seq i n)
  = if bool_decide (i <= d < i + n) then [s] else [].
Proof.
  intros Hs. revert i. induction n as [|n IH]; intros i; simpl.
  - rewrite bool_decide_eq_false_2; [done|lia].
  - rewrite Hs, IH. simpl. destruct (Nat.eqb_spec d i) as [->|Hne].
    + rewrite bool_decide_eq_false_2, bool_decide_eq_true_2; [done|lia..].
    + do 2 case_bool_decide; try done; lia.
Qed.

Lemma downloads_none tr :
  Forall (fun ev => is_download ev = false) tr -> downloads tr = [].
Proof.
  induction 1 as [|ev tr Hev _ IH]; [done|]. unfold downloads in *. simpl.
  by rewrite Hev.
Qed.

(** The body of the [try] of [feed_item]: [archive] inside its
    temporary directory. *)
Lemma feed_item_try_run st :
  feed_item_try rt self st =
  match mkdtemp rt (world st) with
  | (w, Raise e) => (mkState w (item st), [EvTmpDir (Raise e)], Raise e)
  | (w, Ok dir) =>
      let '(st1, t1, o) :=
        archive rt self (mkState w (set_tmp_dir dir (item st))) in
      let '(w2, oc) := rmtree rt dir (world st1) in
      (mkState w2 (item st1),
       EvTmpDir (Ok dir) :: t1 ++ [EvCleanup dir oc],
       match oc with
       | Ok _ => match o with Ok r => Ok (Some r) | Raise e => Raise e end
       | Raise e => Raise e
       end)
  end.
Proof.
  unfold feed_item_try, with_tmp_dir.
  destruct (mkdtemp rt (world st)) as [w [dir|e]]; [|done].
  unfold bind at 1. unfold modify_item at 1. cbn [world item].
  unfold bind at 1.
  destruct (archive rt self _) as [[st1 t1] [r|e]].
  - cbn [ret]. by rewrite (right_id_L [] (++)).
  - done.
Qed.

(** [feed_item], by the way the body of its [try] ends. *)
Lemma feed_item_run it st :
  feed_item rt self it st =
  let '(st1, t1, o) := feed_item_try rt self (mkState (world st) it) in
  match o with
  | Ok x => (st1, EvPrint :: t1, Ok x)
  | Raise KeyboardInterrupt =>
      let '(st2, t2, o2) := notify self Aborted (item st1) st1 in
      (st2, EvPrint :: t1 ++ EvLog Warning :: t2,
       match o2 with Ok _ => Raise SystemExit | Raise e => Raise e end)
  | Raise Exception =>
      let '(st2, t2, o2) := notify self Failed (item st1) st1 in
      (st2, EvPrint :: t1 ++ EvLog Error :: t2,
       match o2 with Ok _ => Ok None | Raise e => Raise e end)
  | Raise SystemExit => (st1, EvPrint :: t1, Raise SystemExit)
  end.
Proof.
  unfold feed_item. unfold bind at 1. cbn [put_item]. unfold bind at 1.
  cbn [emit app]. unfold try_except.
  destruct (feed_item_try rt self _) as [[st1 t1] [x|[]]]; try done.
  - cbn [feed_item_except]. unfold bind at 1. cbn [emit].
    unfold bind at 1. cbn [get_item]. unfold bind at 1. cbn [app].
    destruct (notify self Failed _ st1) as [[st2 t2] [[]|e]]; [|done].
    cbn [ret]. by rewrite (right_id_L [] (++)).
  - cbn [feed_item_except]. unfold bind at 1. cbn [emit].
    unfold bind at 1. cbn [get_item]. unfold bind at 1. cbn [app].
    destruct (notify self Aborted _ st1) as [[st2 t2] [[]|e]]; [|done].
    unfold exit, raise. by rewrite (right_id_L [] (++)).
Qed.

(** The item raised [KeyboardInterrupt]: [aborted] is called on one
    database after the other, and [exit()], or the first of these calls
    that raises, ends the loop of [feed]. *)
Lemma feed_interrupted it items st st1 tr1 :
  feed_item_try rt self (mkState (world st) it)
  = (st1, tr1, Raise KeyboardInterrupt) ->
  exists w2 tr2 o2,
    call_all ((fun d => aborted d (item st1)) <$> databases self) (world st1)
    = (w2, o2) /\
    feed_items rt self (it :: items) st
    = (mkState w2 (item st1), EvPrint :: tr1 ++ EvLog Warning :: tr2,
       Raise (match o2 with Ok _ => SystemExit | Raise e' => e' end)) /\
    (o2 = Ok tt ->
     tr2 = (fun d => EvSignal d Aborted (item st1) (Ok tt))
             <$> seq 0 (length (databases self))).
Proof.
  intros Htry.
  destruct (notify self Aborted (item st1) st1) as [[st2 tr2] o2] eqn:Hn.
  exists (world st2), tr2, o2.
  pose proof (notify_loop_calls _ _ _ _ _ _ _ _ Hn) as Hc.
  apply notify_loop_run in Hn as Hshape. destruct Hshape as [Hit Htr2].
  split_and!; [exact Hc| |by intros ->].
  cbn [feed_items]. unfold bind. rewrite feed_item_run, Htry, Hn.
  destruct st2 as [w2 r2]. simpl in Hit. subst r2. by destruct o2.
Qed.


End Feeding.

(** ** The properties of the orchestrator *)

Section Claims.
Context {W : Type} (rt : Runtime W) (self : ArchivingOrchestrator W).
Implicit Types (st : State W) (tr : list Event).

Lemma signals_no_download s r o (l : list nat) :
  Forall (fun ev => is_download ev = false)
         ((fun d => EvSignal d s r o) <$> l).
Proof. apply Forall_fmap, Forall_forall. by intros d _. Qed.

(** [archive] on a cache hit, after the lookup. *)
Lemma archive_cache_hit st st1 tr1 c :
  archive_lookup rt self st = (st1, tr1, Ok (Some c)) ->
  rearchivable c = false ->
  archive rt self st
  = (let '(st2, t2, o2) := notify self Done c st1 in
     (st2, tr1 ++ EvLog Debug :: t2,
      match o2 with Ok _ => Ok c | Raise e => Raise e end)).
Proof.
  intros Hl Hre. unfold archive.
  rewrite (bind_ok _ _ _ _ _ _ Hl). cbn [archive_after_lookup].
  rewrite Hre. cbn [negb]. unfold short_circuit.
  unfold bind at 1. cbn [emit]. unfold bind at 1.
  destruct (notify self Done c st1) as [[st2 t2] [[]|e]]; [|done].
  cbn [ret]. by rewrite (right_id_L [] (++)).
Qed.

(** C1, as amended.  Cache short-circuit.  When the candidate that the
    lookup leaves is a record [c] whose [rearchivable] flag is false,
    [archive] calls no [download], and after the lookup it calls
    [done], with the record [c], on one database after the other, in
    registration order, up to the first of these calls that raises.
    When every one of these calls returns, [done] has been called on
    every database, [archive] did nothing else after the lookup but
    log, and it returns [c]. *)
Theorem C1_cache_short_circuit st st1 tr1 c :
  archive_lookup rt self st = (st1, tr1, Ok (Some c)) ->
  rearchivable c = false ->
  (forall st' tr o,
      archive rt self st = (st', tr, o) ->
      downloads tr = [] /\
      call_all ((fun d => done d c) <$> databases self) (world st1)
      = (world st', match o with Ok _ => Ok tt | Raise e => Raise e end)) /\
  (forall w',
      call_all ((fun d => done d c) <$> databases self) (world st1)
      = (w', Ok tt) ->
      archive rt self st
      = (mkState w' (item st1),
         tr1 ++ EvLog Debug
             :: ((fun d => EvSignal d Done c (Ok tt))
                   <$> seq 0 (length (databases self))),
         Ok c)).
Proof.
  intros Hl Hre. pose proof (archive_cache_hit _ _ _ _ Hl Hre) as Harch.
  split.
  - intros st' tr o Ha. rewrite Harch in Ha.
    destruct (notify self Done c st1) as [[st2 t2] o2] eqn:Hn.
    injection Ha as <- <- <-.
    pose proof (notify_loop_calls _ _ _ _ _ _ _ _ Hn) as Hc.
    apply archive_lookup_sound in Hl as [Hearly _].
    apply notify_loop_run in Hn as [_ Hn]. split.
    + apply downloads_none. apply Forall_app. split.
      { eapply Forall_impl; [done|]. by intros ev [_ ?]. }
      constructor; [done|]. destruct o2 as [[]|e].
      * subst t2. apply signals_no_download.
      * destruct Hn as (k & _ & ->). apply Forall_app. split.
        -- apply signals_no_download.
        -- by repeat constructor.
    + by destruct o2 as [[]|e].
  - intros w' Hc. rewrite Harch. unfold notify.
    by rewrite (notify_loop_total Done c 0 (databases self) st1 w' Hc).
Qed.



(** C4, as amended.  The lookup calls [started] and then [fetch] on
    one database after the other, in registration order, all with the
    record as it stands, each call in the world that the call before it
    left; the candidate is the merge, in that order, of the results of
    [fetch] that are not empty, the first into a new record, or nothing
    when all are empty. *)
Theorem C4_cache_lookup st st' tr c :
  cache_lookup rt self st = (st', tr, Ok c) ->
  exists results : list (option Metadata),
    length results = length (databases self) /\
    started_then_fetch (item st) (databases self) (world st)
    = (world st', Ok results) /\
    tr = concat (zip_with (fun d lr =>
                             [EvSignal d Started (item st) (Ok tt);
                              EvFetch d (item st) (Ok lr)])
                          (seq 0 (length results)) results) /\
    c = merge_hits rt (omap id results).
Proof.
  intros Hrun. apply cache_loop_run in Hrun
    as (results & Hlen & _ & Hcalls & Htr & ->).
  exists results. split_and!; [done..|].
  rewrite merge_cached_hits. unfold merge_hits.
  by destruct (omap id results).
Qed.

(** C5. Nested media: for a Media [m] of [result.media] whose
    properties hold one scalar, one Media and one list of two Media, in
    any order, every storage is called exactly 4 times for [m] in a pass
    that returns: [store] is applied to the Media itself first, and to
    the nested Media and the two Media of the list.  The properties of
    these three are arbitrary and are not looked into.  Every storage,
    in registration order, is given what belongs to the Media before
    [m], these four objects, and what belongs to the Media after [m]. *)
Theorem C5_nested_media m k1 x k2 nm k3 a b ms1 ms2 st st' tr :
  properties m ≡ₚ [(k1, VScalar x); (k2, VMedia nm);
                   (k3, VList [VMedia a; VMedia b])] ->
  media (item st) = ms1 ++ m :: ms2 ->
  store_media self st = (st', tr, Ok tt) ->
  exists vs : list Value,
    vs ≡ₚ [VMedia nm; VMedia a; VMedia b] /\
    let given := stored_media ms1 ++ (VMedia m :: vs) ++ stored_media ms2 in
    tr = flat_map (fun i => (fun v => EvStore i v (item st) (Ok tt)) <$> given)
                  (seq 0 (length (storages self))) /\
    call_all (flat_map (fun s => (fun v => store s v (item st)) <$> given)
                       (storages self))
             (world st)
    = (world st', Ok tt).
Proof.
  intros Hperm Hm Hrun.
  apply store_media_loop_run in Hrun as (_ & Htr & Hc). rewrite Hm in Htr, Hc.
  exists (flat_map nested_media (properties m).*2). split.
  { rewrite Hperm. done. }
  cbv zeta. unfold stored_media in *.
  rewrite flat_map_app in Htr, Hc. done.
Qed.



(** C10. A property that is a non-empty list is classified by its
    first element.  When that is a Media, [store] is applied to every
    element of the list, Media or not, on every storage; when it is not,
    to no element of the list, whatever follows.  In a pass that
    returns, every storage, in registration order, is given what belongs
    to the Media before [m], then [m], what its properties before the
    list hold, the list or nothing, what its properties after the list
    hold, and what belongs to the Media after [m]. *)
Theorem C10_list_by_first_element m k x l ps1 ps2 ms1 ms2 st st' tr :
  properties m = ps1 ++ (k, VList (x :: l)) :: ps2 ->
  media (item st) = ms1 ++ m :: ms2 ->
  store_media self st = (st', tr, Ok tt) ->
  let of_list := if isinstance_Media x then x :: l else [] in
  let given :=
    stored_media ms1
    ++ (VMedia m :: flat_map nested_media ps1.*2
          ++ of_list ++ flat_map nested_media ps2.*2)
    ++ stored_media ms2 in
  tr = flat_map (fun i => (fun v => EvStore i v (item st) (Ok tt)) <$> given)
                (seq 0 (length (storages self))) /\
  call_all (flat_map (fun s => (fun v => store s v (item st)) <$> given)
                     (storages self))
           (world st)
  = (world st', Ok tt).
Proof.
  intros Hp Hm Hrun.
  apply store_media_loop_run in Hrun as (_ & Htr & Hc). rewrite Hm in Htr, Hc.
  cbv zeta. unfold stored_media in *.
  rewrite flat_map_app in Htr, Hc. cbn [flat_map] in Htr, Hc.
  unfold stored_for in Htr, Hc at 2.
  rewrite Hp, fmap_app, flat_map_app in Htr, Hc.
  cbn [fmap list_fmap flat_map snd] in Htr, Hc.
  assert (nested_media (VList (x :: l))
          = if isinstance_Media x then x :: l else []) as Hn.
  { by destruct x. }
  rewrite Hn in Htr, Hc. done.
Qed.

Lemma filter_terminal_quiet tr :
  Forall quiet tr -> List.filter is_terminal tr = [].
Proof.
  induction 1 as [|ev tr Hq _ IH]; [done|]. simpl.
  unfold quiet in Hq. by rewrite Hq.
Qed.

Lemma filter_terminal_signals s r (l : list nat) :
  terminal s = true ->
  List.filter is_terminal ((fun d => EvSignal d s r (Ok tt)) <$> l)
  = (fun d => EvSignal d s r (Ok tt)) <$> l.
Proof.
  intros Hs. induction l as [|d l IH]; [done|].
  cbn [fmap list_fmap List.filter is_terminal]. rewrite Hs.
  f_equal. exact IH.
Qed.

Lemma delivered_signal s r w w' :
  terminal s = true ->
  call_all ((fun d => signal s d r) <$> databases self) w = (w', Ok tt) ->
  delivered self s r w w'.
Proof. by destruct s. Qed.

(** A loop of terminal notifications in which no call raises: every
    database is called and hears the notification once. *)
Lemma notify_terminal_returns s r st st2 t2 o2 :
  terminal s = true ->
  notify self s r st = (st2, t2, o2) ->
  Forall (fun ev => is_terminal ev = true -> returned ev) t2 ->
  o2 = Ok tt /\
  t2 = (fun d => EvSignal d s r (Ok tt)) <$> seq 0 (length (databases self)) /\
  delivered self s r (world st) (world st2) /\
  forall d, d < length (databases self) -> observed d t2 = [s].
Proof.
  intros Hs Hn Hret.
  pose proof (notify_loop_calls _ _ _ _ _ _ _ _ Hn) as Hc.
  apply notify_loop_run in Hn as [_ Hn].
  destruct o2 as [[]|e].
  - split_and!; [done..|by apply delivered_signal|].
    intros d Hd. subst t2. rewrite observed_signals by done.
    rewrite bool_decide_eq_true_2; [done|lia].
  - destruct Hn as (k & _ & ->). apply Forall_app in Hret as [_ Hret].
    apply Forall_cons in Hret as [Hret _]. by specialize (Hret Hs).
Qed.

(** What the databases observe of a run of [archive] in which no
    terminal notification raises: [done] once each when it returns,
    nothing when it raises. *)
Lemma archive_observed st st' tr o :
  archive rt self st = (st', tr, o) ->
  Forall (fun ev => is_terminal ev = true -> returned ev) tr ->
  match o with
  | Ok r =>
      (forall d, d < length (databases self) -> observed d tr = [Done]) /\
      List.filter is_terminal tr
      = (fun d => EvSignal d Done r (Ok tt))
          <$> seq 0 (length (databases self)) /\
      exists w, delivered self Done r w (world st')
  | Raise e => Forall quiet tr
               /\ exists ev, ev ∈ tr /\ event_raised ev = Some e
  end.
Proof.
  intros Ha Hret.
  destruct (archive_ends_in_done rt self _ _ _ _ Ha)
    as [(e & -> & Hq)|(st1 & tr1 & r & tr2 & o2 & -> & Hq & Hn & ->)].
  - split; [done|].
    apply archive_sound in Ha as [_ HD]. by apply disciplined_raise in HD.
  - apply Forall_app in Hret as [_ Hret].
    destruct (notify_terminal_returns Done _ _ _ _ _ eq_refl Hn Hret)
      as (-> & -> & Hdel & Hobs).
    split_and!.
    + intros d Hd. by rewrite observed_app, observed_quiet, Hobs.
    + rewrite List.filter_app, filter_terminal_quiet by done.
      by rewrite filter_terminal_signals.
    + by exists (world st1).
Qed.

(** The same for the body of the [try] of [feed_item], when moreover
    the removal of the temporary directory does not raise. *)
Lemma feed_item_try_observed st st1 t1 o :
  feed_item_try rt self st = (st1, t1, o) ->
  Forall (fun ev => is_terminal ev = true \/ is_cleanup ev = true
                    -> returned ev) t1 ->
  match o with
  | Ok x =>
      exists r w w' dir,
        x = Some r /\
        (forall d, d < length (databases self) -> observed d t1 = [Done]) /\
        List.filter is_terminal t1
        = (fun d => EvSignal d Done r (Ok tt))
            <$> seq 0 (length (databases self)) /\
        delivered self Done r w w' /\
        rmtree rt dir w' = (world st1, Ok tt)
  | Raise e => Forall quiet t1
               /\ exists ev, ev ∈ t1 /\ event_raised ev = Some e
  end.
Proof.
  rewrite feed_item_try_run.
  destruct (mkdtemp rt (world st)) as [w [dir|e]].
  - destruct (archive rt self _) as [[sa ta] oa] eqn:Ha.
    destruct (rmtree rt dir (world sa)) as [wc oc] eqn:Hrm.
    intros [= <- <- <-] Hret.
    apply Forall_cons in Hret as [_ Hret].
    apply Forall_app in Hret as [Hta Hoc].
    apply Forall_cons in Hoc as [Hoc _].
    specialize (Hoc ltac:(by right)).
    destruct oc as [[]|e]; [|done].
    assert (Forall (fun ev => is_terminal ev = true -> returned ev) ta)
      as Hta'.
    { eapply Forall_impl; [done|]. intros ev Hev ?. apply Hev. by left. }
    pose proof (archive_observed _ _ _ _ Ha Hta') as Hobs.
    destruct oa as [r|e].
    + destruct Hobs as (Hobs & Hfil & w0 & Hdel).
      exists r, w0, (world sa), dir. split_and!; [done| | |done..].
      * intros d Hd. cbn [observed]. by rewrite observed_app, Hobs.
      * cbn [List.filter is_terminal].
        rewrite List.filter_app, Hfil. cbn [List.filter is_terminal].
        by rewrite (right_id_L [] (++)).
    + destruct Hobs as (Hq & ev & Hin & Hev). split.
      * constructor; [done|]. apply Forall_app. split; [done|].
        by repeat constructor.
      * exists ev. split; [|done]. set_solver.
  - intros [= <- <- <-] _. split; [by repeat constructor|].
    exists (EvTmpDir (Raise e)). split; [set_solver|done].
Qed.

(** C8, as amended.  In a run of [feed_item] in which no call of
    [done], [failed] or [aborted] raises, the removal of the temporary
    directory does not raise, and nothing raises an exception that is
    neither an [Exception] nor a [KeyboardInterrupt], every database
    receives exactly one terminal notification, and all receive the
    same: the terminal notifications of the run are one loop in which
    the method of that name is applied on every database, in
    registration order, with one record.  After [done] nothing follows
    but the removal of the directory; [failed] and [aborted] are the
    last thing that [feed_item] does. *)
Theorem C8_one_terminal_notification it st st' tr o :
  feed_item rt self it st = (st', tr, o) ->
  Forall (fun ev => is_terminal ev = true \/ is_cleanup ev = true
                    -> returned ev) tr ->
  Forall (fun ev => event_raised ev <> Some SystemExit) tr ->
  one_terminal_each (length (databases self)) tr /\
  exists s r w w',
    List.filter is_terminal tr
    = (fun d => EvSignal d s r (Ok tt)) <$> seq 0 (length (databases self)) /\
    delivered self s r w w' /\
    match s with
    | Done => exists dir, rmtree rt dir w' = (world st', Ok tt)
    | _ => w' = world st'
    end.
Proof.
  rewrite feed_item_run.
  destruct (feed_item_try rt self _) as [[st1 t1] o1] eqn:Htry.
  assert (forall (lv : level) t2,
    Forall (fun ev => is_terminal ev = true \/ is_cleanup ev = true
                      -> returned ev)
           (EvPrint :: t1 ++ EvLog lv :: t2) ->
    Forall (fun ev => is_terminal ev = true \/ is_cleanup ev = true
                      -> returned ev) t1 /\
    Forall (fun ev => is_terminal ev = true -> returned ev) t2) as Hsplit.
  { intros lv t2 H. apply Forall_cons in H as [_ H].
    apply Forall_app in H as [H1 H2]. split; [done|].
    apply Forall_cons in H2 as [_ H2].
    eapply Forall_impl; [done|]. intros ev Hev ?. apply Hev. by left. }
  assert (forall s (lv : level) st2 t2 o2,
    terminal s = true -> s <> Done ->
    Forall quiet t1 ->
    notify self s (item st1) st1 = (st2, t2, o2) ->
    Forall (fun ev => is_terminal ev = true -> returned ev) t2 ->
    one_terminal_each (length (databases self))
                      (EvPrint :: t1 ++ EvLog lv :: t2) /\
    exists s r w w',
      List.filter is_terminal (EvPrint :: t1 ++ EvLog lv :: t2)
      = (fun d => EvSignal d s r (Ok tt))
          <$> seq 0 (length (databases self)) /\
      delivered self s r w w' /\
      match s with
      | Done => exists dir, rmtree rt dir w' = (world st2, Ok tt)
      | _ => w' = world st2
      end) as Hhandler.
  { intros s lv st2 t2 o2 Hs Hnd Hq Hn Ht2.
    destruct (notify_terminal_returns s _ _ _ _ _ Hs Hn Ht2)
      as (_ & Htr2 & Hdel & Hobs).
    split.
    - exists s. intros d Hd. cbn [observed].
      rewrite observed_app, observed_quiet by done. cbn [observed app].
      by apply Hobs.
    - exists s, (item st1), (world st1), (world st2). split_and!; [|done|].
      + cbn [List.filter is_terminal].
        rewrite List.filter_app, filter_terminal_quiet by done.
        cbn [List.filter is_terminal app]. rewrite Htr2.
        by apply filter_terminal_signals.
      + by destruct s. }
  destruct o1 as [x|[]].
  - intros [= <- <- <-] Hret _.
    apply Forall_cons in Hret as [_ Hret].
    destruct (feed_item_try_observed _ _ _ _ Htry Hret)
      as (r & w & w' & dir & _ & Hobs & Hfil & Hdel & Hrm).
    split; [by exists Done|].
    exists Done, r, w, w'. split_and!; [done..|]. by exists dir.
  - destruct (notify self Failed (item _) _) as [[st2 t2] o2] eqn:Hn.
    intros [= <- <- <-] Hret _.
    apply (Hsplit Error) in Hret as [Ht1 Ht2].
    destruct (feed_item_try_observed _ _ _ _ Htry Ht1) as [Hq _].
    by eapply (Hhandler Failed).
  - destruct (notify self Aborted (item _) _) as [[st2 t2] o2] eqn:Hn.
    intros [= <- <- <-] Hret _.
    apply (Hsplit Warning) in Hret as [Ht1 Ht2].
    destruct (feed_item_try_observed _ _ _ _ Htry Ht1) as [Hq _].
    by eapply (Hhandler Aborted).
  - intros [= <- <- <-] Hret Hext. exfalso.
    apply Forall_cons in Hret as [_ Hret].
    destruct (feed_item_try_observed _ _ _ _ Htry Hret)
      as [_ (ev & Hin & Hev)].
    apply Forall_cons in Hext as [_ Hext].
    by eapply Forall_forall in Hext.
Qed.

(** C9, as amended.  A [KeyboardInterrupt] raised by [download] is not
    caught by the [try] of the loop over the archivers: it ends
    [archive] there and then, with no log line and no further archiver.
    When the removal of the temporary directory returns, [feed_item]
    takes the path of the interrupt: [aborted] is called, with the
    item, on one database after the other, in registration order, up
    to the first of these calls that raises, on every database when
    they all return; and the loop of [feed] ends in all cases. *)
Theorem C9_interrupt_in_download it items st w dir sa ta oa a r wc :
  mkdtemp rt (world st) = (w, Ok dir) ->
  archive rt self (mkState w (set_tmp_dir dir it)) = (sa, ta, oa) ->
  EvDownload a r (Raise KeyboardInterrupt) ∈ ta ->
  rmtree rt dir (world sa) = (wc, Ok tt) ->
  oa = Raise KeyboardInterrupt /\
  (exists tr0, ta = tr0 ++ [EvDownload a r (Raise KeyboardInterrupt)]) /\
  exists w2 tr2 o2,
    call_all ((fun d => aborted d (item sa)) <$> databases self) wc
    = (w2, o2) /\
    feed_items rt self (it :: items) st
    = (mkState w2 (item sa),
       EvPrint :: (EvTmpDir (Ok dir) :: ta ++ [EvCleanup dir (Ok tt)])
         ++ EvLog Warning :: tr2,
       Raise (match o2 with Ok _ => SystemExit | Raise e' => e' end)) /\
    (o2 = Ok tt ->
     tr2 = (fun d => EvSignal d Aborted (item sa) (Ok tt))
             <$> seq 0 (length (databases self))).
Proof.
  intros Hmk Ha Hin Hrm.
  pose proof Ha as HD. apply archive_sound in HD as [_ HD].
  destruct (disciplined_returned _ _ _ HD Hin ltac:(done))
    as (tr0 & -> & -> & _).
  split; [done|]. split; [by exists tr0|].
  assert (feed_item_try rt self (mkState (world st) it)
          = (mkState wc (item sa),
             EvTmpDir (Ok dir)
               :: (tr0 ++ [EvDownload a r (Raise KeyboardInterrupt)])
               ++ [EvCleanup dir (Ok tt)],
             Raise KeyboardInterrupt)) as Htry.
  { rewrite feed_item_try_run. cbn [world item]. by rewrite Hmk, Ha, Hrm. }
  exact (feed_interrupted rt self it items st _ _ Htry).
Qed.

End Claims.

(** ** The properties on concrete runs *)

Lemma run_eta {A B C} (x : A * B * C) : x = (x.1.1, x.1.2, x.2).
Proof. by destruct x as [[a b] c]. Qed.

(** C1 as stated fails: both databases hold the item, and [done] raises
    in the first.  The second database never hears of the item, and
    [archive] does not return the cached record. *)
Lemma C1_counterexample :
  let orch := Journal.two_hits (Raise Exception) in
  let st := Journal.start (Demo.record "u") in
  let lk := archive_lookup Journal.rt orch st in
  let run := archive Journal.rt orch st in
  lk.2 = Ok (Some Journal.merged) /\
  rearchivable Journal.merged = false /\
  run.2 = Raise Exception /\
  world run.1.1 = world lk.1.1 ++ ["db0.done"] /\
  forall o, EvSignal 1 Done Journal.merged o ∉ run.1.2.
Proof.
  intros orch st lk run.
  split; [vm_compute; reflexivity|]. split; [reflexivity|].
  split; [vm_compute; reflexivity|]. split; [vm_compute; reflexivity|].
  intros o Hin. apply list_elem_of_In in Hin. vm_compute in Hin.
  intuition congruence.
Qed.

(** The short-circuit on a cache hit: the journal ends with [done] on
    both databases, and the archiver was not asked to download. *)
Lemma C1_witness :
  let orch := Journal.two_hits (Ok tt) in
  let st := Journal.start (Demo.record "u") in
  let lk := archive_lookup Journal.rt orch st in
  let c := Journal.merged in
  let w' := ["a.sanitize_url"; "a.is_rearchivable"; "db0.started";
             "db0.fetch"; "db1.started"; "db1.fetch"; "db0.done";
             "db1.done"] in
  lk = (lk.1.1, lk.1.2, Ok (Some c)) /\
  rearchivable c = false /\
  call_all ((fun d => done d c) <$> databases orch) (world lk.1.1)
  = (w', Ok tt) /\
  world (archive Journal.rt orch st).1.1 = w' /\
  downloads (archive Journal.rt orch st).1.2 = [] /\
  archive Journal.rt orch st
  = (mkState w' (item lk.1.1),
     lk.1.2 ++ [EvLog Debug; EvSignal 0 Done c (Ok tt);
                EvSignal 1 Done c (Ok tt)],
     Ok c).
Proof.
  intros orch st lk c w'.
  assert (lk = (lk.1.1, lk.1.2, Ok (Some c))) as Hlk.
  { vm_compute. reflexivity. }
  assert (call_all ((fun d => done d c) <$> databases orch) (world lk.1.1)
          = (w', Ok tt)) as Hc.
  { vm_compute. reflexivity. }
  destruct (C1_cache_short_circuit Journal.rt orch st lk.1.1 lk.1.2 c
              Hlk eq_refl) as [Hany Hall].
  split; [exact Hlk|]. split; [reflexivity|]. split; [exact Hc|].
  split; [vm_compute; reflexivity|]. split.
  - exact (proj1 (Hany _ _ _ (run_eta (archive Journal.rt orch st)))).
  - exact (Hall w' Hc).
Defined.




(** C4 as stated fails: with two databases, [started] is called on the
    second after [fetch] was called on the first. *)
Lemma C4_counterexample :
  let orch := Journal.two_hits (Ok tt) in
  let run := cache_lookup Journal.rt orch (Journal.start (Demo.record "u")) in
  run.2 = Ok (Some Journal.merged) /\
  world run.1.1 = ["db0.started"; "db0.fetch"; "db1.started"; "db1.fetch"] /\
  ~ started_all_before_fetch run.1.2.
Proof.
  intros orch run. split; [vm_compute; reflexivity|].
  split; [vm_compute; reflexivity|]. intros H.
  assert (run.1.2 !! 1
          = Some (EvFetch 0 (Demo.record "u") (Ok (Some Journal.hit1)))) as H1.
  { vm_compute. reflexivity. }
  assert (run.1.2 !! 2
          = Some (EvSignal 1 Started (Demo.record "u") (Ok tt))) as H2.
  { vm_compute. reflexivity. }
  specialize (H 1 2 _ _ _ _ _ _ H1 H2). lia.
Qed.

(** Two databases that both hold the item: [started], [fetch],
    [started], [fetch], and the candidate holds the Media of both. *)
Lemma C4_witness :
  let orch := Journal.two_hits (Ok tt) in
  let st := Journal.start (Demo.record "u") in
  let run := cache_lookup Journal.rt orch st in
  run = (run.1.1, run.1.2, Ok (Some Journal.merged)) /\
  world run.1.1 = ["db0.started"; "db0.fetch"; "db1.started"; "db1.fetch"] /\
  merge_hits Journal.rt [Journal.hit1; Journal.hit2] = Some Journal.merged /\
  exists results : list (option Metadata),
    length results = 2 /\
    started_then_fetch (item st) (databases orch) (world st)
    = (world run.1.1, Ok results) /\
    run.1.2 = concat (zip_with (fun d lr =>
                                  [EvSignal d Started (item st) (Ok tt);
                                   EvFetch d (item st) (Ok lr)])
                               (seq 0 (length results)) results) /\
    Some Journal.merged = merge_hits Journal.rt (omap id results).
Proof.
  intros orch st run.
  assert (run = (run.1.1, run.1.2, Ok (Some Journal.merged))) as Hrun.
  { vm_compute. reflexivity. }
  split; [exact Hrun|]. split; [vm_compute; reflexivity|].
  split; [vm_compute; reflexivity|].
  exact (C4_cache_lookup Journal.rt orch st run.1.1 run.1.2
           (Some Journal.merged) Hrun).
Defined.

(** The video after another Media, on two storages: each storage is
    given the video, its thumbnail and its two frames; the Media inside
    the thumbnail and inside the second frame are not stored. *)
Lemma C5_witness :
  let st := Journal.start (Journal.with_media "u" [Journal.notes; Demo.video]) in
  let run := store_media Journal.orch_store st in
  run = (run.1.1, run.1.2, Ok tt) /\
  world run.1.1
  = ["s0.store notes.txt"; "s0.store video.mp4"; "s0.store thumb.jpg";
     "s0.store 1.jpg"; "s0.store 2.jpg";
     "s1.store notes.txt"; "s1.store video.mp4"; "s1.store thumb.jpg";
     "s1.store 1.jpg"; "s1.store 2.jpg"] /\
  exists vs : list Value,
    vs ≡ₚ [VMedia Demo.thumb; VMedia Demo.frame1; VMedia Demo.frame2] /\
    let given := stored_media [Journal.notes] ++ (VMedia Demo.video :: vs)
                 ++ stored_media [] in
    run.1.2
    = flat_map (fun i => (fun v => EvStore i v (item st) (Ok tt)) <$> given)
               (seq 0 2) /\
    call_all (flat_map (fun s => (fun v => store s v (item st)) <$> given)
                       (storages Journal.orch_store))
             (world st)
    = (world run.1.1, Ok tt).
Proof.
  intros st run.
  assert (run = (run.1.1, run.1.2, Ok tt)) as Hrun.
  { vm_compute. reflexivity. }
  split; [exact Hrun|]. split; [vm_compute; reflexivity|].
  exact (C5_nested_media Journal.orch_store Demo.video "duration" "12"
           "thumbnail" Demo.thumb "frames" Demo.frame1 Demo.frame2
           [Journal.notes] [] st run.1.1 run.1.2
           (reflexivity _) eq_refl Hrun).
Defined.




(** C8 as stated fails.  When [done] raises in the second database, the
    first has received [done] and then receives [failed].  And when the
    temporary directory cannot be removed after [archive] returned, both
    databases have received [done] and then receive [failed], though no
    notification raised. *)
Lemma C8_counterexample :
  (let run := feed_item Demo.rt Demo.orch_done_raises (Demo.record "u")
                        (Demo.start (Demo.record "")) in
   observed 0 run.1.2 = [Done; Failed] /\
   ~ one_terminal_each 2 run.1.2) /\
  (let orch := Journal.orch_pair Ok (Ok (Demo.succeeded "")) (Ok tt) (Ok tt) in
   let run := feed_item (Journal.runtime (Raise Exception)) orch
                        (Demo.record "u") (Journal.start (Demo.record "")) in
   Forall (fun ev => is_terminal ev = true -> returned ev) run.1.2 /\
   world run.1.1
   = ["mkdtemp"; "a.sanitize_url"; "b.sanitize_url"; "a.is_rearchivable";
      "b.is_rearchivable"; "db0.started"; "db0.fetch"; "db1.started";
      "db1.fetch"; "a.download"; "format"; "db0.done"; "db1.done";
      "rmtree tmp0"; "db0.failed"; "db1.failed"] /\
   observed 0 run.1.2 = [Done; Failed] /\
   ~ one_terminal_each 2 run.1.2).
Proof.
  split.
  - intros run.
    assert (observed 0 run.1.2 = [Done; Failed]) as Hobs.
    { vm_compute. reflexivity. }
    split; [exact Hobs|]. intros [s Hs].
    specialize (Hs 0 ltac:(lia)). rewrite Hobs in Hs. discriminate Hs.
  - intros orch run.
    assert (observed 0 run.1.2 = [Done; Failed]) as Hobs.
    { vm_compute. reflexivity. }
    split.
    { vm_compute. repeat (apply Forall_cons; split; [done|]).
      by apply Forall_nil. }
    split; [vm_compute; reflexivity|].
    split; [exact Hobs|]. intros [s Hs].
    specialize (Hs 0 ltac:(lia)). rewrite Hobs in Hs. discriminate Hs.
Qed.

(** An item whose sanitizer raises an [Exception] and nothing else
    does: [failed] once for each database, and nothing after it. *)
Lemma C8_witness :
  let orch := Journal.orch_pair (fun _ => Raise Exception)
                                (Ok (Demo.succeeded "")) (Ok tt) (Ok tt) in
  let run := feed_item Journal.rt orch (Demo.record "u")
                       (Journal.start (Demo.record "")) in
  Forall (fun ev => is_terminal ev = true \/ is_cleanup ev = true
                    -> returned ev) run.1.2 /\
  Forall (fun ev => event_raised ev <> Some SystemExit) run.1.2 /\
  observed 0 run.1.2 = [Failed] /\ observed 1 run.1.2 = [Failed] /\
  world run.1.1 = ["mkdtemp"; "a.sanitize_url"; "rmtree tmp0";
                   "db0.failed"; "db1.failed"] /\
  one_terminal_each 2 run.1.2 /\
  exists s r w w',
    List.filter is_terminal run.1.2
    = (fun d => EvSignal d s r (Ok tt)) <$> seq 0 2 /\
    delivered orch s r w w' /\
    match s with
    | Done => exists dir, rmtree Journal.rt dir w' = (world run.1.1, Ok tt)
    | _ => w' = world run.1.1
    end.
Proof.
  intros orch run.
  assert (Forall (fun ev => is_terminal ev = true \/ is_cleanup ev = true
                            -> returned ev) run.1.2) as H1.
  { vm_compute.
    repeat (apply Forall_cons; split; [by first [done|intros [[=]|[=]]]|]).
    by apply Forall_nil. }
  assert (Forall (fun ev => event_raised ev <> Some SystemExit) run.1.2)
    as H2.
  { vm_compute. repeat (apply Forall_cons; split; [done|]).
    by apply Forall_nil. }
  split; [exact H1|]. split; [exact H2|].
  split; [vm_compute; reflexivity|]. split; [vm_compute; reflexivity|].
  split; [vm_compute; reflexivity|].
  exact (C8_one_terminal_notification Journal.rt orch (Demo.record "u")
           (Journal.start (Demo.record "")) run.1.1 run.1.2 run.2
           (run_eta run) H1 H2).
Defined.

(** C9 as stated fails.  The user interrupts a download and [aborted]
    raises in the first database: the second is not told of the abort.
    The user interrupts a download and the temporary directory cannot
    be removed: the item takes the path of a failure, [aborted] is not
    called at all, and the run goes on with the next item. *)
Lemma C9_counterexample :
  let st := Journal.start (Demo.record "") in
  let items := [Demo.record "u"; Demo.record "v"] in
  (let orch := Journal.fed items
                 (Journal.orch_pair Ok (Raise KeyboardInterrupt)
                                    (Ok tt) (Raise Exception)) in
   let run := feed Journal.rt orch st in
   run.2 = Raise Exception /\
   world run.1.1 = ["mkdtemp"; "a.sanitize_url"; "b.sanitize_url";
                    "a.is_rearchivable"; "b.is_rearchivable";
                    "db0.started"; "db0.fetch"; "db1.started"; "db1.fetch";
                    "a.download"; "rmtree tmp0"; "db0.aborted"]) /\
  (let orch := Journal.fed items
                 (Journal.orch_pair Ok (Raise KeyboardInterrupt)
                                    (Ok tt) (Ok tt)) in
   let run := feed (Journal.runtime (Raise Exception)) orch st in
   run.2 = Ok tt /\
   world run.1.1 = ["mkdtemp"; "a.sanitize_url"; "b.sanitize_url";
                    "a.is_rearchivable"; "b.is_rearchivable";
                    "db0.started"; "db0.fetch"; "db1.started"; "db1.fetch";
                    "a.download"; "rmtree tmp0"; "db0.failed"; "db1.failed";
                    "mkdtemp"; "a.sanitize_url"; "b.sanitize_url";
                    "a.is_rearchivable"; "b.is_rearchivable";
                    "db0.started"; "db0.fetch"; "db1.started"; "db1.fetch";
                    "a.download"; "rmtree tmp0"; "db0.failed"; "db1.failed"]).
Proof.
  intros st items. split; intros orch run; split; vm_compute; reflexivity.
Qed.

(** The user interrupts the first archiver: the second is not tried,
    the directory is removed, both databases receive [aborted], and the
    item that follows is not processed. *)
Lemma C9_witness :
  let it := Demo.record "u" in
  let items := [Demo.record "v"] in
  let orch := Journal.fed (it :: items)
                (Journal.orch_pair Ok (Raise KeyboardInterrupt)
                                   (Ok tt) (Ok tt)) in
  let st := Journal.start (Demo.record "") in
  let w := ["mkdtemp"] in
  let run := archive Journal.rt orch (mkState w (set_tmp_dir "tmp0" it)) in
  let r := item run.1.1 in
  let wc := world run.1.1 ++ ["rmtree tmp0"] in
  mkdtemp Journal.rt (world st) = (w, Ok "tmp0") /\
  EvDownload 0 r (Raise KeyboardInterrupt) ∈ run.1.2 /\
  rmtree Journal.rt "tmp0" (world run.1.1) = (wc, Ok tt) /\
  world (feed Journal.rt orch st).1.1
  = ["mkdtemp"; "a.sanitize_url"; "b.sanitize_url"; "a.is_rearchivable";
     "b.is_rearchivable"; "db0.started"; "db0.fetch"; "db1.started";
     "db1.fetch"; "a.download"; "rmtree tmp0"; "db0.aborted";
     "db1.aborted"] /\
  run.2 = Raise KeyboardInterrupt /\
  (exists tr0, run.1.2 = tr0 ++ [EvDownload 0 r (Raise KeyboardInterrupt)]) /\
  exists w2 tr2 o2,
    call_all ((fun d => aborted d (item run.1.1)) <$> databases orch) wc
    = (w2, o2) /\
    feed Journal.rt orch st
    = (mkState w2 (item run.1.1),
       EvPrint :: (EvTmpDir (Ok "tmp0") :: run.1.2
                     ++ [EvCleanup "tmp0" (Ok tt)])
         ++ EvLog Warning :: tr2,
       Raise (match o2 with Ok _ => SystemExit | Raise e' => e' end)) /\
    (o2 = Ok tt ->
     tr2 = (fun d => EvSignal d Aborted (item run.1.1) (Ok tt))
             <$> seq 0 2).
Proof.
  intros it items orch st w run r wc.
  assert (EvDownload 0 r (Raise KeyboardInterrupt) ∈ run.1.2) as Hin.
  { apply list_elem_of_In. vm_compute.
    repeat (first [left; reflexivity | right]). }
  assert (rmtree Journal.rt "tmp0" (world run.1.1) = (wc, Ok tt)) as Hrm.
  { vm_compute. reflexivity. }
  split; [reflexivity|]. split; [exact Hin|]. split; [exact Hrm|].
  split; [vm_compute; reflexivity|].
  exact (C9_interrupt_in_download Journal.rt orch it items st w "tmp0"
           run.1.1 run.1.2 run.2 0 r wc eq_refl (run_eta run) Hin Hrm).
Defined.

(** An album whose list of pages starts with a Media: every page is
    stored, the note included.  Notes whose list of lines starts with a
    note: no line is stored, the Media included.  On both storages. *)
Lemma C10_witness :
  let st := Journal.start
              (Journal.with_media "u" [Journal.album; Journal.notes]) in
  let run := store_media Journal.orch_store st in
  run = (run.1.1, run.1.2, Ok tt) /\
  world run.1.1
  = ["s0.store album.zip"; "s0.store thumb.jpg"; "s0.store 1.jpg";
     "s0.store note"; "s0.store 2.jpg"; "s0.store notes.txt";
     "s1.store album.zip"; "s1.store thumb.jpg"; "s1.store 1.jpg";
     "s1.store note"; "s1.store 2.jpg"; "s1.store notes.txt"] /\
  (let of_list := [VMedia Demo.frame1; VScalar "note"; VMedia Demo.frame2] in
   let given := [VMedia Journal.album; VMedia Demo.thumb] ++ of_list
                ++ [VMedia Journal.notes] in
   run.1.2
   = flat_map (fun i => (fun v => EvStore i v (item st) (Ok tt)) <$> given)
              (seq 0 2) /\
   call_all (flat_map (fun s => (fun v => store s v (item st)) <$> given)
                      (storages Journal.orch_store))
            (world st)
   = (world run.1.1, Ok tt)) /\
  (let of_list := [] in
   let given := stored_media [Journal.album] ++ [VMedia Journal.notes]
                ++ of_list in
   run.1.2
   = flat_map (fun i => (fun v => EvStore i v (item st) (Ok tt)) <$> given)
              (seq 0 2) /\
   call_all (flat_map (fun s => (fun v => store s v (item st)) <$> given)
                      (storages Journal.orch_store))
            (world st)
   = (world run.1.1, Ok tt)).
Proof.
  intros st run.
  assert (run = (run.1.1, run.1.2, Ok tt)) as Hrun.
  { vm_compute. reflexivity. }
  split; [exact Hrun|]. split; [vm_compute; reflexivity|]. split.
  - exact (C10_list_by_first_element Journal.orch_store Journal.album
             "pages" (VMedia Demo.frame1) [VScalar "note"; VMedia Demo.frame2]
             [("cover", VMedia Demo.thumb)] [("size", VScalar "3")]
             [] [Journal.notes] st run.1.1 run.1.2 eq_refl eq_refl Hrun).
  - exact (C10_list_by_first_element Journal.orch_store Journal.notes
             "lines" (VScalar "note") [VMedia Demo.frame1] [] []
             [Journal.album] [] st run.1.1 run.1.2 eq_refl eq_refl Hrun).
Defined.

(** ** Further properties of the orchestrator *)

Section Extras.
Context {W : Type} (rt : Runtime W) (self : ArchivingOrchestrator W).
Implicit Types (st : State W) (tr : list Event).

Local Ltac event_step :=
  first
    [ apply sound_ret | apply sound_get_item | apply sound_modify_item
    | apply sound_when | apply sound_emit; [done..]
    | apply sound_call; [by intros []..]
    | apply sound_bind; [|intros ?]
    | apply sound_for_each; intros ? ? ].

Lemma sanitize_loop_events i (l : list (Archiver W)) u :
  sound lookup_event (sanitize_loop i l u).
Proof.
  revert i u. induction l as [|a l IH]; intros i u; cbn [sanitize_loop];
    repeat event_step. apply IH.
Qed.

Lemma cache_loop_events i (l : list (Database W)) cached :
  sound lookup_event (cache_loop rt i l cached).
Proof.
  revert i cached. induction l as [|d l IH]; intros i cached;
    cbn [cache_loop]; repeat event_step. apply IH.
Qed.

Lemma archive_lookup_events : sound lookup_event (archive_lookup rt self).
Proof.
  unfold archive_lookup, sanitize, rearchivable_check, cache_lookup.
  repeat event_step; [apply sanitize_loop_events|apply cache_loop_events].
Qed.

Lemma notify_done_events r : sound archive_event (notify self Done r).
Proof. unfold notify. repeat event_step. Qed.

Lemma fetch_loop_events i (l : list (Archiver W)) :
  sound archive_event (fetch_loop rt i l).
Proof.
  revert i. induction l as [|a l IH]; intros i; cbn [fetch_loop].
  - apply sound_ret.
  - apply sound_bind; [by apply sound_emit|intros _].
    apply sound_bind; [|intros [|]; [apply sound_ret|apply IH]].
    intros st st' tr o. rewrite try_download_run.
    destruct (download a (item st) (world st)) as [w [x|[]]];
      intros [= <- <- <-]; (split; [by repeat constructor|]); simpl;
      try (by repeat constructor).
    + by exists [], (EvDownload i (item st) (Raise KeyboardInterrupt)).
    + by exists [], (EvDownload i (item st) (Raise SystemExit)).
Qed.

Lemma call_enrich_events i (e : Enricher W) :
  sound archive_event (call_enrich i e).
Proof.
  intros st st' tr o. unfold call_enrich.
  destruct (enrich e (item st) (world st)) as [[w r] [[]|x]];
    intros [= <- <- <-]; (split; [by repeat constructor|]); simpl.
  - by repeat constructor.
  - by exists [], (EvEnrich i (item st) (Raise x)).
Qed.

Lemma call_store_events i (s : Storage W) v :
  sound archive_event (call_store i s v).
Proof. unfold call_store. repeat event_step. Qed.

(** All that [archive] does is call the plug-ins it drives and log. *)
Lemma archive_events : sound archive_event (archive rt self).
Proof.
  unfold archive. apply sound_bind.
  { eapply sound_mono; [|apply archive_lookup_events].
    intros ev Hev. destruct ev; try done. by destruct s. }
  assert (sound archive_event (archive_fresh rt self)) as Hfresh.
  { unfold archive_fresh, after_archivers, signal_completion,
      call_archivers, call_enrichers, store_media, store_one, store_prop,
      format_and_store.
    apply sound_bind; [apply fetch_loop_events|intros _].
    apply sound_bind;
      [apply sound_for_each; intros ? ?; apply call_enrich_events|intros _].
    apply sound_bind.
    { repeat first [apply call_store_events | event_step]. }
    intros _. apply sound_bind.
    { apply sound_bind; [apply sound_get_item|intros r].
      apply sound_bind; [by apply sound_call|intros [fm|]].
      - repeat first [apply call_store_events | event_step].
      - apply sound_ret. }
    intros _. repeat first [apply notify_done_events | event_step]. }
  intros [c|]; simpl; [|done]. destruct (rearchivable c); simpl; [done|].
  unfold short_circuit. repeat first [apply notify_done_events | event_step].
Qed.

(** X1. [archive] fails fast.  A run that returns holds no call that
    raised, except calls of [download] that raised an [Exception]; a run
    that raises [e] ends with the call that raised [e], and no call
    before it raised anything but an [Exception] in [download]: nothing
    else is caught, retried or skipped. *)
Theorem X1_archive_fails_fast st st' tr o :
  archive rt self st = (st', tr, o) ->
  match o with
  | Ok _ => Forall (fun ev => uncaught ev = None) tr
  | Raise e => exists tr0 ev,
      tr = tr0 ++ [ev] /\ event_raised ev = Some e /\
      Forall (fun ev => uncaught ev = None) tr0
  end.
Proof.
  intros Ha. apply archive_sound in Ha as [_ HD].
  destruct o as [r|e]; [done|].
  destruct HD as (tr0 & ev & -> & H0 & Hev). exists tr0, ev.
  split_and!; [done| |done].
  destruct ev as [| | |? ? [|[]]| | | | | | | | |]; simpl in *; congruence.
Qed.

(** X2. When [archive] returns a record, the last thing it did was to
    call [done] with that very record on every database, in
    registration order, each call in the world that the call before it
    left, and it made no terminal notification before. *)
Theorem X2_archive_returns_after_done st st' tr r :
  archive rt self st = (st', tr, Ok r) ->
  exists tr1 w1,
    tr = tr1 ++ ((fun d => EvSignal d Done r (Ok tt))
                   <$> seq 0 (length (databases self))) /\
    Forall quiet tr1 /\
    call_all ((fun d => done d r) <$> databases self) w1
    = (world st', Ok tt).
Proof.
  intros Ha.
  destruct (archive_ends_in_done rt self _ _ _ _ Ha)
    as [(e & [=] & _)|(st1 & tr1 & r' & tr2 & o2 & -> & Hq & Hn & Ho)].
  pose proof (notify_loop_calls _ _ _ _ _ _ _ _ Hn) as Hc.
  apply notify_loop_run in Hn as [_ Hn].
  destruct o2 as [[]|e]; [|done]. injection Ho as ->. subst tr2.
  by exists tr1, (world st1).
Qed.

(** X3. A cache hit does no work on the item: when the candidate of the
    lookup is a record that is not [rearchivable], [archive] calls no
    [download], no [enrich], no [store] and no [format], whether or not
    a call raises. *)
Theorem X3_cache_hit_skips_processing st st1 tr1 c st' tr o :
  archive_lookup rt self st = (st1, tr1, Ok (Some c)) ->
  rearchivable c = false ->
  archive rt self st = (st', tr, o) ->
  Forall (fun ev => is_processing ev = false) tr.
Proof.
  intros Hl Hre Ha. unfold archive in Ha.
  rewrite (bind_ok _ _ _ _ _ _ Hl) in Ha. cbn [archive_after_lookup] in Ha.
  rewrite Hre in Ha. cbn [negb] in Ha.
  destruct (short_circuit self c st1) as [[st2 t2] o2] eqn:Hs.
  injection Ha as <- <- <-.
  apply archive_lookup_events in Hl as [Hev _].
  apply Forall_app. split.
  - eapply Forall_impl; [done|]. by intros [].
  - unfold short_circuit in Hs.
    apply bind_inv in Hs
      as [(st3 & t3 & [] & t4 & [= <- <-] & Hs & ->)|(e & [=] & _)].
    constructor; [done|].
    apply bind_inv in Hs
      as [(st4 & t5 & [] & t6 & Hn & [= <- <-] & ->)|(e & Hn & ->)];
      apply notify_loop_run in Hn as [_ Hn].
    + subst t5. rewrite (right_id_L [] (++)).
      apply Forall_fmap, Forall_forall. by intros d _.
    + destruct Hn as (k & _ & ->). apply Forall_app. split.
      * apply Forall_fmap, Forall_forall. by intros d _.
      * by repeat constructor.
Qed.

Lemma notify_events s r st st' tr o :
  notify self s r st = (st', tr, o) ->
  Forall (fun ev => exists d o', ev = EvSignal d s r o') tr.
Proof.
  intros Hn. apply notify_loop_run in Hn as [_ Hn]. destruct o as [[]|e].
  - subst tr. apply Forall_fmap, Forall_forall. intros d _. simpl. eauto.
  - destruct Hn as (k & _ & ->). apply Forall_app. split.
    + apply Forall_fmap, Forall_forall. intros d _. simpl. eauto.
    + repeat constructor. eauto.
Qed.

(** The [except] clauses of [feed_item] call the databases' own
    methods and log; they do nothing else. *)
Lemma handler_run s r st1 st2 t2 o2 :
  s = Failed \/ s = Aborted ->
  notify self s r st1 = (st2, t2, o2) ->
  Forall handler_event t2 /\
  call_all ((fun d => signal s d r) <$> databases self) (world st1)
  = (world st2, o2).
Proof.
  intros Hs Hn. split; [|by eapply notify_loop_calls].
  apply notify_events in Hn. eapply Forall_impl; [done|].
  intros ev (d & o' & ->). by destruct Hs as [-> | ->].
Qed.

(** X4. The temporary directory of an item.  When it cannot be
    created, [archive] is not called and nothing is removed.  Otherwise
    [feed_item] creates it before [archive] does anything and, however
    [archive] ends, removes it once, in the world that [archive] left;
    only then does it log and call [failed] or [aborted], when the
    removal or, if the removal returned, [archive] raised an
    [Exception] or a [KeyboardInterrupt]. *)
Theorem X4_tmp_dir_scoped it st st' tr o :
  feed_item rt self it st = (st', tr, o) ->
  match mkdtemp rt (world st) with
  | (w, Raise e) =>
      exists th,
        tr = EvPrint :: EvTmpDir (Raise e) :: th /\ Forall handler_event th
  | (w, Ok dir) =>
      exists sa ta oa wc oc th,
        archive rt self (mkState w (set_tmp_dir dir it)) = (sa, ta, oa) /\
        rmtree rt dir (world sa) = (wc, oc) /\
        tr = EvPrint :: EvTmpDir (Ok dir) :: ta ++ EvCleanup dir oc :: th /\
        Forall archive_event ta /\ Forall handler_event th /\
        match leaves_with oa oc with
        | Some Exception =>
            exists t2 o2,
              th = EvLog Error :: t2 /\
              call_all ((fun d => failed d (item sa)) <$> databases self) wc
              = (world st', o2)
        | Some KeyboardInterrupt =>
            exists t2 o2,
              th = EvLog Warning :: t2 /\
              call_all ((fun d => aborted d (item sa)) <$> databases self) wc
              = (world st', o2)
        | _ => th = [] /\ st' = mkState wc (item sa)
        end
  end.
Proof.
  rewrite feed_item_run, feed_item_try_run. cbn [world item].
  destruct (mkdtemp rt (world st)) as [w [dir|e]].
  - destruct (archive rt self _) as [[sa ta] oa] eqn:Ha.
    destruct (rmtree rt dir (world sa)) as [wc oc] eqn:Hrm.
    pose proof Ha as Hev. apply archive_events in Hev as [Hev _].
    assert (forall x : res (option Metadata),
      match leaves_with oa oc with
      | Some e => x = Raise e
      | None => exists y, x = Ok y
      end ->
      match x with
      | Ok y => (mkState wc (item sa),
                 EvPrint :: EvTmpDir (Ok dir) :: ta ++ [EvCleanup dir oc],
                 Ok y)
      | Raise KeyboardInterrupt =>
          let '(st2, t2, o2) :=
            notify self Aborted (item sa) (mkState wc (item sa)) in
          (st2,
           EvPrint :: (EvTmpDir (Ok dir) :: ta ++ [EvCleanup dir oc])
             ++ EvLog Warning :: t2,
           match o2 with Ok _ => Raise SystemExit | Raise e => Raise e end)
      | Raise Exception =>
          let '(st2, t2, o2) :=
            notify self Failed (item sa) (mkState wc (item sa)) in
          (st2,
           EvPrint :: (EvTmpDir (Ok dir) :: ta ++ [EvCleanup dir oc])
             ++ EvLog Error :: t2,
           match o2 with Ok _ => Ok None | Raise e => Raise e end)
      | Raise SystemExit =>
          (mkState wc (item sa),
           EvPrint :: EvTmpDir (Ok dir) :: ta ++ [EvCleanup dir oc],
           Raise SystemExit)
      end = (st', tr, o) ->
      exists th,
        tr = EvPrint :: EvTmpDir (Ok dir) :: ta ++ EvCleanup dir oc :: th /\
        Forall handler_event th /\
        match leaves_with oa oc with
        | Some Exception =>
            exists t2 o2,
              th = EvLog Error :: t2 /\
              call_all ((fun d => failed d (item sa)) <$> databases self) wc
              = (world st', o2)
        | Some KeyboardInterrupt =>
            exists t2 o2,
              th = EvLog Warning :: t2 /\
              call_all ((fun d => aborted d (item sa)) <$> databases self) wc
              = (world st', o2)
        | _ => th = [] /\ st' = mkState wc (item sa)
        end) as Hcases.
    { intros x Hx. destruct (leaves_with oa oc) as [[]|].
      - subst x.
        destruct (notify self Failed _ _) as [[st2 t2] o2] eqn:Hn.
        intros [= <- <- <-].
        destruct (handler_run Failed _ _ _ _ _ ltac:(by left) Hn)
          as [Hh Hc].
        exists (EvLog Error :: t2). split_and!.
        + simpl. by rewrite <- (assoc_L (++)).
        + by constructor.
        + by exists t2, o2.
      - subst x.
        destruct (notify self Aborted _ _) as [[st2 t2] o2] eqn:Hn.
        intros [= <- <- <-].
        destruct (handler_run Aborted _ _ _ _ _ ltac:(by right) Hn)
          as [Hh Hc].
        exists (EvLog Warning :: t2). split_and!.
        + simpl. by rewrite <- (assoc_L (++)).
        + by constructor.
        + by exists t2, o2.
      - subst x. intros [= <- <- <-]. by exists [].
      - destruct Hx as [y ->]. intros [= <- <- <-]. by exists []. }
    intros Hrun. apply Hcases in Hrun as (th & Htr & Hh & Hend).
    + by exists sa, ta, oa, wc, oc, th.
    + unfold leaves_with. destruct oc as [[]|ec]; [|done].
      destruct oa as [r|ea]; [by eexists|done].
  - destruct e.
    + destruct (notify self Failed _ _) as [[st2 t2] o2] eqn:Hn.
      intros [= <- <- <-].
      destruct (handler_run Failed _ _ _ _ _ ltac:(by left) Hn) as [Hh _].
      exists (EvLog Error :: t2). split; [done|]. by constructor.
    + destruct (notify self Aborted _ _) as [[st2 t2] o2] eqn:Hn.
      intros [= <- <- <-].
      destruct (handler_run Aborted _ _ _ _ _ ltac:(by right) Hn) as [Hh _].
      exists (EvLog Warning :: t2). split; [done|]. by constructor.
    + intros [= <- <- <-]. by exists [].
Qed.

Lemma enrich_loop_run i (l : list (Enricher W)) st st' tr :
  for_each call_enrich i l st = (st', tr, Ok tt) ->
  exists rs : list Metadata,
    length rs = length l /\
    tr = zip_with (fun j r => EvEnrich j r (Ok tt))
                  (seq i (length rs)) (item st :: rs) /\
    item st' = default (item st) (last rs) /\
    (forall j e r_in r_out,
        l !! j = Some e -> (item st :: rs) !! j = Some r_in ->
        rs !! j = Some r_out ->
        exists w w', enrich e r_in w = (w', r_out, Ok tt)).
Proof.
  revert i st tr. induction l as [|e l IH]; intros i st tr; cbn [for_each].
  - intros [= <- <-]. by exists [].
  - intros Hrun. apply bind_inv in Hrun
      as [(st1 & t1 & [] & t2 & H1 & H2 & ->)|(x & _ & [=])].
    unfold call_enrich in H1.
    destruct (enrich e (item st) (world st)) as [[w r1] o1] eqn:He.
    injection H1 as <- <- ->.
    apply IH in H2 as (rs & Hlen & -> & Hit & Hlink).
    exists (r1 :: rs). split_and!; [by rewrite !length_cons, Hlen|done| |].
    + rewrite last_cons. simpl in Hit. by destruct (last rs).
    + intros [|j] e' r_in r_out He' Hin Hout; simpl in *.
      * injection He' as <-. injection Hin as <-. injection Hout as <-.
        by exists (world st), w.
      * by eapply Hlink.
Qed.

(** X5. The enrichers: [enrich] is called once on every enricher, in
    registration order; the first is given the record of the item and
    each other the record as the enricher before it left it; the item
    ends as the last left it. *)
Theorem X5_enrichers_cumulative st st' tr :
  call_enrichers self st = (st', tr, Ok tt) ->
  exists rs : list Metadata,
    length rs = length (enrichers self) /\
    tr = zip_with (fun j r => EvEnrich j r (Ok tt))
                  (seq 0 (length rs)) (item st :: rs) /\
    item st' = default (item st) (last rs) /\
    (forall j e r_in r_out,
        enrichers self !! j = Some e -> (item st :: rs) !! j = Some r_in ->
        rs !! j = Some r_out ->
        exists w w', enrich e r_in w = (w', r_out, Ok tt)).
Proof. apply enrich_loop_run. Qed.

(** X6. Storing the media: one storage after the other, in registration
    order, is given every Media of [result.media], in order, each
    followed by the Media its properties hold one level deep; [store]
    is applied to each of them in the world that the call before it
    left.  Nothing else is called and the record stays as it is (in a
    pass in which [store] returns). *)
Theorem X6_store_media_order st st' tr :
  store_media self st = (st', tr, Ok tt) ->
  let given := stored_media (media (item st)) in
  item st' = item st /\
  tr = flat_map (fun i => (fun v => EvStore i v (item st) (Ok tt)) <$> given)
                (seq 0 (length (storages self))) /\
  call_all (flat_map (fun s => (fun v => store s v (item st)) <$> given)
                     (storages self))
           (world st)
  = (world st', Ok tt).
Proof. apply store_media_loop_run. Qed.



Global Instance lookup_frame_preorder : PreOrder lookup_frame.
Proof.
  split.
  - by intros r.
  - intros r1 r2 r3 (? & ? & ? & ? & Hm & ?) (? & ? & ? & ? & Hm' & ?).
    split_and!; try congruence; [|tauto].
    intros k Hk. by rewrite Hm', Hm.
Qed.

Lemma preserves_bind {A B} (R : Metadata -> Metadata -> Prop)
      `{!Transitive R} (m : M W A) (f : A -> M W B) :
  preserves R m -> (forall a, preserves R (f a)) -> preserves R (bind m f).
Proof.
  intros Hm Hf st st' tr o Hrun. apply bind_inv in Hrun
    as [(st1 & t1 & a & t2 & H1 & H2 & ->)|(e & H1 & ->)].
  - etrans; [by eapply Hm|by eapply Hf].
  - by eapply Hm.
Qed.

Lemma preserves_call {A} (R : Metadata -> Metadata -> Prop)
      `{!Reflexive R} (f : W -> W * res A) ev :
  preserves R (call f ev).
Proof.
  intros st st' tr o Hrun. by apply call_inv in Hrun as (w & _ & -> & _).
Qed.

Lemma preserves_for_each {A} (R : Metadata -> Metadata -> Prop)
      `{!PreOrder R} (body : nat -> A -> M W unit) i l :
  (forall j x, preserves R (body j x)) -> preserves R (for_each body i l).
Proof.
  intros Hb. revert i. induction l as [|x l IH]; intros i; cbn [for_each].
  - by intros st st' tr o [= <- <- <-].
  - apply preserves_bind; [apply _|apply Hb|]. intros _. apply IH.
Qed.

Lemma sanitize_loop_preserves (R : Metadata -> Metadata -> Prop)
      `{!PreOrder R} i (l : list (Archiver W)) u :
  preserves R (sanitize_loop i l u).
Proof.
  revert i u. induction l as [|a l IH]; intros i u; cbn [sanitize_loop].
  - by intros st st' tr o [= <- <- <-].
  - apply preserves_bind; [apply _|apply preserves_call; apply _|]. intros u'.
    apply IH.
Qed.

Lemma cache_loop_preserves (R : Metadata -> Metadata -> Prop)
      `{!PreOrder R} i (l : list (Database W)) cached :
  preserves R (cache_loop rt i l cached).
Proof.
  revert i cached. induction l as [|d l IH]; intros i cached;
    cbn [cache_loop].
  - by intros st st' tr o [= <- <- <-].
  - apply preserves_bind; [apply _| |intros r].
    { by intros st st' tr o [= <- <- <-]. }
    apply preserves_bind; [apply _|apply preserves_call; apply _|intros _].
    apply preserves_bind; [apply _|apply preserves_call; apply _|intros lr].
    apply IH.
Qed.

(** X8. What [archive] changes of the record before it calls the
    archivers, however the lookup ends: the URL, the key [original_url]
    and the flag [rearchivable], which is never lowered.  The success
    flag, the temporary directory, the media, the final media and the
    other keys stay as they are. *)
Theorem X8_lookup_frame st st' tr o :
  archive_lookup rt self st = (st', tr, o) ->
  success (item st') = success (item st) /\
  tmp_dir (item st') = tmp_dir (item st) /\
  media (item st') = media (item st) /\
  final_media (item st') = final_media (item st) /\
  (forall k, k <> "original_url" ->
             metadata (item st') !! k = metadata (item st) !! k) /\
  (rearchivable (item st) = true -> rearchivable (item st') = true).
Proof.
  revert st st' tr o. change (preserves lookup_frame (archive_lookup rt self)).
  assert (forall f : Metadata -> Metadata,
            (forall r, lookup_frame r (f r)) ->
            preserves lookup_frame (modify_item (W:=W) f)) as Hmod.
  { intros f Hf st st' tr o [= <- <- <-]. apply Hf. }
  unfold archive_lookup, sanitize, rearchivable_check, cache_lookup.
  apply preserves_bind; [apply _| |intros url].
  - apply preserves_bind; [apply _| |intros r].
    { by intros st st' tr o [= <- <- <-]. }
    apply preserves_bind;
      [apply _|apply sanitize_loop_preserves; apply _|intros u].
    apply preserves_bind; [apply _|by apply Hmod|intros _].
    apply preserves_bind; [apply _| |intros _].
    + destruct (negb _); simpl.
      * apply Hmod. intros r0. split_and!; try done.
        intros k Hk. simpl. by rewrite lookup_insert_ne.
      * by intros st st' tr o [= <- <- <-].
    + by intros st st' tr o [= <- <- <-].
  - apply preserves_bind; [apply _| |intros _].
    + apply preserves_bind; [apply _| |intros _].
      * apply preserves_for_each; [apply _|]. intros j a.
        apply preserves_bind; [apply _|apply preserves_call; apply _|intros b].
        apply Hmod. intros r0. split_and!; try done. simpl.
        intros ->. done.
      * by intros st st' tr o [= <- <- <-].
    + apply cache_loop_preserves. apply _.
Qed.



Lemma filter_print_app tr1 tr2 :
  List.filter is_print (tr1 ++ tr2)
  = List.filter is_print tr1 ++ List.filter is_print tr2.
Proof. apply List.filter_app. Qed.

Lemma no_print tr :
  Forall (fun ev => is_print ev = false) tr -> List.filter is_print tr = [].
Proof.
  induction 1 as [|ev tr Hev _ IH]; [done|]. simpl. by rewrite Hev.
Qed.

(** The body of the [try] of [feed_item] does not print, and when it
    raises, one of its calls raised that exception. *)
Lemma feed_item_try_events st st1 t1 o :
  feed_item_try rt self st = (st1, t1, o) ->
  Forall (fun ev => is_print ev = false) t1 /\
  forall e, o = Raise e -> exists ev, ev ∈ t1 /\ event_raised ev = Some e.
Proof.
  rewrite feed_item_try_run.
  destruct (mkdtemp rt (world st)) as [w [dir|e]].
  - destruct (archive rt self _) as [[sa ta] oa] eqn:Ha.
    destruct (rmtree rt dir (world sa)) as [wc oc].
    intros [= <- <- <-]. split.
    + constructor; [done|]. apply Forall_app. split; [|by repeat constructor].
      apply archive_events in Ha as [Hev _].
      eapply Forall_impl; [done|]. by intros [].
    + intros e He. destruct oc as [[]|ec].
      * destruct oa as [r|ea]; [done|]. injection He as ->.
        apply archive_sound in Ha as [_ HD].
        apply disciplined_raise in HD as (ev & Hin & Hev).
        exists ev. split; [|done]. set_solver.
      * injection He as ->. exists (EvCleanup dir (Raise e)).
        split; [|done]. set_solver.
  - intros [= <- <- <-]. split; [by repeat constructor|].
    intros e' [= ->]. exists (EvTmpDir (Raise e')). split; [|done].
    set_solver.
Qed.

(** One item, fed in a run without interrupt in which [failed] returns:
    [feed_item] returns, after one [print]. *)
Lemma feed_item_survives it st st' tr o :
  feed_item rt self it st = (st', tr, o) ->
  Forall (fun ev => event_raised ev <> Some KeyboardInterrupt
                    /\ event_raised ev <> Some SystemExit) tr ->
  Forall (fun ev => forall d r e, ev <> EvSignal d Failed r (Raise e)) tr ->
  (exists x, o = Ok x) /\ List.filter is_print tr = [EvPrint].
Proof.
  rewrite feed_item_run.
  destruct (feed_item_try rt self _) as [[st1 t1] o1] eqn:Htry.
  apply feed_item_try_events in Htry as [Hnp' Hraise].
  pose proof (no_print _ Hnp') as Hnp.
  destruct o1 as [r|[]].
  - intros [= <- <- <-] _ _. split; [by eexists|]. simpl. by rewrite Hnp.
  - destruct (notify self Failed _ _) as [[st2 t2] o2] eqn:Hn.
    intros [= <- <- <-] _ Hf.
    pose proof (notify_events _ _ _ _ _ _ Hn) as Hsig.
    apply notify_loop_run in Hn as [_ Hn]. destruct o2 as [[]|e].
    + split; [by eexists|]. simpl.
      rewrite !filter_print_app, Hnp. simpl. rewrite no_print; [done|].
      eapply Forall_impl; [done|]. by intros ev (d & o' & ->).
    + exfalso. destruct Hn as (k & _ & ->).
      rewrite Forall_forall in Hf. eapply Hf; [|done].
      rewrite !elem_of_cons, !elem_of_app, !elem_of_cons, !elem_of_app,
        !elem_of_cons. eauto 10.
  - destruct (notify self Aborted _ _) as [[st2 t2] o2] eqn:Hn.
    intros [= <- <- <-] Hi _. exfalso.
    destruct (Hraise _ eq_refl) as (ev & Hin & Hr).
    rewrite Forall_forall in Hi. destruct (Hi ev); [|done].
    rewrite !elem_of_cons, !elem_of_app. eauto 10.
  - intros [= <- <- <-] Hi _. exfalso.
    destruct (Hraise _ eq_refl) as (ev & Hin & Hr).
    rewrite Forall_forall in Hi. destruct (Hi ev); [|done].
    rewrite !elem_of_cons. eauto 10.
Qed.

(** X11. Failures of single items do not stop the run: in a run of
    [feed] in which no call is interrupted or exits and every call of
    [failed] returns, the loop returns after it has processed every
    item of the feeder, whatever else the plug-ins raised. *)
Theorem X11_feed_isolates_failures (items : list Metadata) st st' tr o :
  feed_items rt self items st = (st', tr, o) ->
  Forall (fun ev => event_raised ev <> Some KeyboardInterrupt
                    /\ event_raised ev <> Some SystemExit) tr ->
  Forall (fun ev => forall d r e, ev <> EvSignal d Failed r (Raise e)) tr ->
  o = Ok tt /\ length (List.filter is_print tr) = length items.
Proof.
  revert st tr. induction items as [|it items IH]; intros st tr;
    cbn [feed_items].
  - by intros [= <- <- <-].
  - unfold bind.
    destruct (feed_item rt self it st) as [[st1 t1] o1] eqn:H1.
    destruct (feed_items rt self items st1) as [[st2 t2] o2] eqn:H2.
    intros Hrun Hi Hf.
    assert (exists x, o1 = Ok x) as [x ->].
    { destruct o1 as [x|e]; [by eexists|]. injection Hrun as <- <- <-.
      by destruct (feed_item_survives _ _ _ _ _ H1 Hi Hf) as [[x [=]] _]. }
    injection Hrun as <- <- <-.
    apply Forall_app in Hi as [Hi1 Hi2]. apply Forall_app in Hf as [Hf1 Hf2].
    destruct (feed_item_survives _ _ _ _ _ H1 Hi1 Hf1) as [_ Hp].
    destruct (IH _ _ H2 Hi2 Hf2) as [-> Hlen].
    split; [done|]. rewrite filter_print_app, length_app, Hp, Hlen. done.
Qed.



End Extras.

(** ** Properties of [utils/misc.py] *)



(** X13. [expand_url] never raises: whatever [requests.get] does, an
    interrupt included, the result is a URL, either the URL given or the
    URL of the response. *)
Theorem X13_expand_url_never_raises {W}
        (get : string -> W -> W * res string) (url : string) (w : W) :
  exists w' tr u,
    expand_url get url w = (w', tr, Ok u) /\
    (u = url \/ get url w = (w', Ok u)).
Proof.
  unfold expand_url. destruct (str_contains _ url).
  - destruct (get url w) as [w' [u|e]] eqn:Hget.
    + exists w', [Requested url; Logged Debug], u. by split; [|right].
    + exists w', [Requested url; Logged Error], url. by split; [|left].
  - exists w, [], url. by split; [|left].
Qed.


(** X15. With a default that is not [None], [getattr_or] never returns
    [None] and never raises: it returns the attribute when the object
    has it and it is not [None], the default otherwise. *)
Theorem X15_getattr_or_never_none {V} (o : gmap string (option V))
        (prop : string) (d : V) :
  exists v, getattr_or o prop (Some d) = Ok (Some v) /\
            (o !! prop = Some (Some v) \/
             (v = d /\ (o !! prop = None \/ o !! prop = Some None))).
Proof.
  unfold getattr_or, getattr. destruct (o !! prop) as [[v|]|].
  - exists v. by split; [|left].
  - exists d. split; [done|]. right. by split; [|right].
  - exists d. split; [done|]. right. by split; [|left].
Qed.


(** ** The further properties on concrete runs *)

(** The second sanitizer raises: it is the last call of [archive]. *)
Lemma X1_witness :
  let run := archive Demo.rt Demo.orch_sanitizer_raises
                     (Demo.start (Demo.record "u")) in
  run = (run.1.1, run.1.2, Raise Exception) /\
  exists tr0 ev,
    run.1.2 = tr0 ++ [ev] /\ event_raised ev = Some Exception /\
    Forall (fun ev => uncaught ev = None) tr0.
Proof.
  intros run.
  assert (run = (run.1.1, run.1.2, Raise Exception)) as Hrun.
  { vm_compute. reflexivity. }
  split; [exact Hrun|].
  exact (X1_archive_fails_fast Demo.rt Demo.orch_sanitizer_raises
           (Demo.start (Demo.record "u")) run.1.1 run.1.2 (Raise Exception)
           Hrun).
Defined.

(** The whole pipeline returns: [done] on both databases is the last
    that the journal records. *)
Lemma X2_witness :
  let orch := Journal.orch_pair Ok (Ok (Demo.succeeded "")) (Ok tt) (Ok tt) in
  let run := archive Journal.rt orch (Journal.start (Demo.record "u")) in
  world run.1.1
  = ["a.sanitize_url"; "b.sanitize_url"; "a.is_rearchivable";
     "b.is_rearchivable"; "db0.started"; "db0.fetch"; "db1.started";
     "db1.fetch"; "a.download"; "format"; "db0.done"; "db1.done"] /\
  exists r tr1 w1,
    run = (run.1.1, run.1.2, Ok r) /\
    run.1.2 = tr1 ++ [EvSignal 0 Done r (Ok tt); EvSignal 1 Done r (Ok tt)] /\
    Forall quiet tr1 /\
    call_all ((fun d => done d r) <$> databases orch) w1
    = (world run.1.1, Ok tt).
Proof.
  intros orch run. split; [vm_compute; reflexivity|].
  assert (exists r, run = (run.1.1, run.1.2, Ok r)) as [r Hrun].
  { vm_compute. eexists. reflexivity. }
  destruct (X2_archive_returns_after_done Journal.rt orch
              (Journal.start (Demo.record "u")) run.1.1 run.1.2 r Hrun)
    as (tr1 & w1 & Htr & Hq & Hc).
  exists r, tr1, w1. split; [exact Hrun|]. split; [exact Htr|].
  split; [exact Hq|exact Hc].
Defined.

(** A cache hit: the archiver, the storage and the formatter are not
    called. *)
Lemma X3_witness :
  let st := Demo.start (Demo.record "u") in
  let lk := archive_lookup Demo.rt Demo.orch_cached st in
  let run := archive Demo.rt Demo.orch_cached st in
  lk = (lk.1.1, lk.1.2, Ok (Some Demo.cached)) /\
  Forall (fun ev => is_processing ev = false) run.1.2.
Proof.
  intros st lk run.
  assert (lk = (lk.1.1, lk.1.2, Ok (Some Demo.cached))) as Hlk.
  { vm_compute. reflexivity. }
  split; [exact Hlk|].
  exact (X3_cache_hit_skips_processing Demo.rt Demo.orch_cached st
           lk.1.1 lk.1.2 Demo.cached run.1.1 run.1.2 run.2 Hlk eq_refl
           (run_eta run)).
Defined.

(** The user interrupts a download and the directory cannot be removed:
    the removal comes after the download, and its exception, not the
    interrupt, decides that [failed] is called. *)
Lemma X4_witness :
  let rt := Journal.runtime (Raise Exception) in
  let orch := Journal.orch_pair Ok (Raise KeyboardInterrupt) (Ok tt) (Ok tt) in
  let it := Demo.record "u" in
  let run := feed_item rt orch it (Journal.start (Demo.record "")) in
  world run.1.1
  = ["mkdtemp"; "a.sanitize_url"; "b.sanitize_url"; "a.is_rearchivable";
     "b.is_rearchivable"; "db0.started"; "db0.fetch"; "db1.started";
     "db1.fetch"; "a.download"; "rmtree tmp0"; "db0.failed"; "db1.failed"] /\
  exists sa ta oa wc oc th,
    archive rt orch (mkState ["mkdtemp"] (set_tmp_dir "tmp0" it))
    = (sa, ta, oa) /\
    rmtree rt "tmp0" (world sa) = (wc, oc) /\
    run.1.2 = EvPrint :: EvTmpDir (Ok "tmp0") :: ta
                ++ EvCleanup "tmp0" oc :: th /\
    Forall archive_event ta /\ Forall handler_event th /\
    match leaves_with oa oc with
    | Some Exception =>
        exists t2 o2,
          th = EvLog Error :: t2 /\
          call_all ((fun d => failed d (item sa)) <$> databases orch) wc
          = (world run.1.1, o2)
    | Some KeyboardInterrupt =>
        exists t2 o2,
          th = EvLog Warning :: t2 /\
          call_all ((fun d => aborted d (item sa)) <$> databases orch) wc
          = (world run.1.1, o2)
    | _ => th = [] /\ run.1.1 = mkState wc (item sa)
    end.
Proof.
  intros rt orch it run. split; [vm_compute; reflexivity|].
  exact (X4_tmp_dir_scoped rt orch it (Journal.start (Demo.record ""))
           run.1.1 run.1.2 run.2 (run_eta run)).
Defined.

(** Two enrichers that each append a Media: the second is given the
    record with the Media of the first. *)
Lemma X5_witness :
  let st := Demo.start (Demo.record "u") in
  let run := call_enrichers Demo.orch_full st in
  run = (run.1.1, run.1.2, Ok tt) /\
  media (item run.1.1) = [Demo.video; Demo.frame1] /\
  exists rs : list Metadata,
    length rs = 2 /\
    run.1.2 = zip_with (fun j r => EvEnrich j r (Ok tt))
                       (seq 0 (length rs)) (item st :: rs) /\
    item run.1.1 = default (item st) (last rs) /\
    (forall j e r_in r_out,
        enrichers Demo.orch_full !! j = Some e ->
        (item st :: rs) !! j = Some r_in -> rs !! j = Some r_out ->
        exists w w', enrich e r_in w = (w', r_out, Ok tt)).
Proof.
  intros st run.
  assert (run = (run.1.1, run.1.2, Ok tt)) as Hrun.
  { vm_compute. reflexivity. }
  split; [exact Hrun|]. split; [vm_compute; reflexivity|].
  exact (X5_enrichers_cumulative Demo.orch_full st run.1.1 run.1.2 Hrun).
Defined.

(** Two storages, two Media: the first storage stores the video with
    its three nested Media and the frame, then the second does. *)
Lemma X6_witness :
  let st := Journal.start (Journal.with_media "u" [Demo.video; Demo.frame1]) in
  let run := store_media Journal.orch_store st in
  run = (run.1.1, run.1.2, Ok tt) /\
  world run.1.1
  = ["s0.store video.mp4"; "s0.store thumb.jpg"; "s0.store 1.jpg";
     "s0.store 2.jpg"; "s0.store 1.jpg";
     "s1.store video.mp4"; "s1.store thumb.jpg"; "s1.store 1.jpg";
     "s1.store 2.jpg"; "s1.store 1.jpg"] /\
  let given := stored_media [Demo.video; Demo.frame1] in
  item run.1.1 = item st /\
  run.1.2
  = flat_map (fun i => (fun v => EvStore i v (item st) (Ok tt)) <$> given)
             (seq 0 2) /\
  call_all (flat_map (fun s => (fun v => store s v (item st)) <$> given)
                     (storages Journal.orch_store))
           (world st)
  = (world run.1.1, Ok tt).
Proof.
  intros st run.
  assert (run = (run.1.1, run.1.2, Ok tt)) as Hrun.
  { vm_compute. reflexivity. }
  split; [exact Hrun|]. split; [vm_compute; reflexivity|].
  exact (X6_store_media_order Journal.orch_store st run.1.1 run.1.2 Hrun).
Defined.


(** The URL is rewritten and the flag raised; the rest of the record is
    as it was. *)
Lemma X8_witness :
  let st := Demo.start (Demo.record "u") in
  let run := archive_lookup Demo.rt Demo.orch_rewrite st in
  get_url (item run.1.1) = "u/a?b" /\
  rearchivable (item run.1.1) = true /\
  success (item run.1.1) = success (item st) /\
  tmp_dir (item run.1.1) = tmp_dir (item st) /\
  media (item run.1.1) = media (item st) /\
  final_media (item run.1.1) = final_media (item st) /\
  (forall k, k <> "original_url" ->
             metadata (item run.1.1) !! k = metadata (item st) !! k) /\
  (rearchivable (item st) = true -> rearchivable (item run.1.1) = true).
Proof.
  intros st run. split; [vm_compute; reflexivity|].
  split; [vm_compute; reflexivity|].
  exact (X8_lookup_frame Demo.rt Demo.orch_rewrite st run.1.1 run.1.2 run.2
           (run_eta run)).
Defined.


(** Three items that all fail: all three are processed and the loop
    returns. *)
Lemma X11_witness :
  let items := [Demo.record "a"; Demo.record "b"; Demo.record "c"] in
  let run := feed_items Demo.rt Demo.orch_sanitizer_raises items
                        (Demo.start (Demo.record "")) in
  Forall (fun ev => event_raised ev <> Some KeyboardInterrupt
                    /\ event_raised ev <> Some SystemExit) run.1.2 /\
  Forall (fun ev => forall d r e, ev <> EvSignal d Failed r (Raise e))
         run.1.2 /\
  length (List.filter is_terminal run.1.2) = 3 /\
  run.2 = Ok tt /\ length (List.filter is_print run.1.2) = 3.
Proof.
  intros items run.
  assert (Forall (fun ev => event_raised ev <> Some KeyboardInterrupt
                            /\ event_raised ev <> Some SystemExit) run.1.2)
    as H1.
  { vm_compute. repeat (apply Forall_cons; split; [done|]).
    by apply Forall_nil. }
  assert (Forall (fun ev => forall d r e, ev <> EvSignal d Failed r (Raise e))
                 run.1.2) as H2.
  { vm_compute. repeat (apply Forall_cons; split; [by intros ? ? ? [=]|]).
    by apply Forall_nil. }
  split; [exact H1|]. split; [exact H2|]. split; [vm_compute; reflexivity|].
  exact (X11_feed_isolates_failures Demo.rt Demo.orch_sanitizer_raises items
           (Demo.start (Demo.record "")) run.1.1 run.1.2 run.2
           (run_eta run) H1 H2).
Defined.


(** A short link is expanded; a host that interrupts the request leaves
    the URL as it is; a URL without [https://t.co/] is not requested. *)
Lemma X13_witness :
  expand_url Demo.requests_get "https://t.co/abc" tt
  = (tt, [Requested "https://t.co/abc"; Logged Debug],
     Ok "https://example.org/long") /\
  expand_url Demo.requests_get "https://t.co/down" tt
  = (tt, [Requested "https://t.co/down"; Logged Error],
     Ok "https://t.co/down") /\
  expand_url Demo.requests_get "https://example.org/t.co/" tt
  = (tt, [], Ok "https://example.org/t.co/").
Proof.
  destruct (X13_expand_url_never_raises Demo.requests_get
              "https://t.co/down" tt) as (w' & tr & u & Hrun & _).
  split; [vm_compute; reflexivity|]. split; [|vm_compute; reflexivity].
  rewrite Hrun. vm_compute in Hrun. by injection Hrun as <- <- <-.
Defined.
